(** * speech_to_text_backend: the server's pure core, embedded and verified

    Source: [src/server.js] (the audio splicer, the text normaliser, the
    keyword extractor, the diarization pipeline, the fragment handler and
    the manual control messages) and the topic extractor module bundled
    with it.

    Conventions of the embedding.
    - A JavaScript string is the list of its UTF-16 code units.  The
      development covers the code units [0 .. 255] (Basic Latin and
      Latin-1 Supplement), so a code unit is an [ascii].
    - A Node [Buffer] is a [list byte].
    - A call that throws is [None] in the option monad.
    - Answers of the external services (transcription, summarisation,
      topic, translation) are inputs of the model.
    - [console.log] and [Date.now()] are not modelled. *)

From Stdlib Require Import ZArith NArith List Ascii String Bool Lia.
From Stdlib.Strings Require Import Byte.
From stdpp Require Import base option list gmap strings.
Import ListNotations.

Open Scope Z_scope.
Open Scope list_scope.

(** ** JavaScript strings *)

Module Js.

Definition jsstring := list ascii.

(** String literals of the source are written [$"..."]. *)
Notation "$ s" := (list_ascii_of_string s) (at level 1, format "$ s").

Definition code (c : ascii) : N := N_of_ascii c.

Definition inRange (lo hi : N) (c : ascii) : bool :=
  ((lo <=? code c) && (code c <=? hi))%N.

(** [\s] (and the set [trim] removes): TAB, LF, VT, FF, CR, SPACE and
    NO-BREAK SPACE are the white space and line terminators below 256. *)
Definition isSpace (c : ascii) : bool :=
  inRange 9 13 c || (code c =? 32)%N || (code c =? 160)%N.

(** [\w] is [[A-Za-z0-9_]]. *)
Definition isUpperAZ (c : ascii) : bool := inRange 65 90 c.
Definition isLowerAZ (c : ascii) : bool := inRange 97 122 c.
Definition isDigit (c : ascii) : bool := inRange 48 57 c.
Definition isAlpha (c : ascii) : bool := isUpperAZ c || isLowerAZ c.
Definition isWord (c : ascii) : bool :=
  isAlpha c || isDigit c || (code c =? 95)%N.

(** [String.prototype.toLowerCase] on one code unit: A-Z, and the
    Latin-1 capitals U+00C0..U+00DE except the multiplication sign. *)
Definition lowerUnit (c : ascii) : ascii :=
  if isUpperAZ c || (inRange 192 222 c && negb (code c =? 215)%N)
  then ascii_of_N (code c + 32)
  else c.

Definition toLowerCase (s : jsstring) : jsstring := map lowerUnit s.

Fixpoint dropWhile {A} (p : A -> bool) (l : list A) : list A :=
  match l with
  | [] => []
  | x :: t => if p x then dropWhile p t else l
  end.

Definition trimStart (s : jsstring) : jsstring := dropWhile isSpace s.
Definition trimEnd (s : jsstring) : jsstring := rev (dropWhile isSpace (rev s)).
Definition trim (s : jsstring) : jsstring := trimEnd (trimStart s).

(** A JavaScript string is falsy exactly when it is empty. *)
Definition truthy (s : jsstring) : bool :=
  match s with [] => false | _ => true end.

Definition eqs (a b : jsstring) : bool := bool_decide (a = b).

Definition len (s : jsstring) : Z := Z.of_nat (length s).

(** [s.startsWith(p)] *)
Fixpoint startsWith (p s : jsstring) : bool :=
  match p, s with
  | [], _ => true
  | _ :: _, [] => false
  | a :: p', b :: s' => bool_decide (a = b) && startsWith p' s'
  end.

(** [hay.indexOf(needle)], the scan starting at index [i]; [-1] when the
    needle does not occur. *)
Fixpoint indexOfFrom (needle hay : jsstring) (i : Z) : Z :=
  match hay with
  | [] => if startsWith needle [] then i else -1
  | _ :: t => if startsWith needle hay then i else indexOfFrom needle t (i + 1)
  end.

Definition indexOf (hay needle : jsstring) : Z := indexOfFrom needle hay 0.

(** [hay.lastIndexOf(needle)] *)
Fixpoint lastIndexOfFrom (needle hay : jsstring) (i : Z) : Z :=
  match hay with
  | [] => if startsWith needle [] then i else -1
  | _ :: t =>
      let later := lastIndexOfFrom needle t (i + 1) in
      if later =? -1 then (if startsWith needle hay then i else -1) else later
  end.

Definition lastIndexOf (hay needle : jsstring) : Z := lastIndexOfFrom needle hay 0.

Definition includes (hay needle : jsstring) : bool :=
  negb (indexOf hay needle =? -1).

(** An index argument of [substring]: clamped to [0 .. length]. *)
Definition clampIndex (s : jsstring) (i : Z) : nat :=
  Z.to_nat (Z.min (Z.max i 0) (len s)).

(** [s.substring(a, b)]: both ends clamped, swapped when [a > b]. *)
Definition substring (s : jsstring) (a b : Z) : jsstring :=
  let a' := clampIndex s a in
  let b' := clampIndex s b in
  take (Nat.max a' b' - Nat.min a' b') (drop (Nat.min a' b') s).

(** [s.substring(a)] *)
Definition substringFrom (s : jsstring) (a : Z) : jsstring :=
  drop (clampIndex s a) s.

(** [s.split(/\s+/)]: the pieces between maximal white-space runs; a run
    at either end leaves an empty piece there, and the empty string
    splits into one empty piece.  [cur] is the piece being read,
    reversed; [inSep] holds right after a separator unit. *)
Fixpoint splitWsFrom (inSep : bool) (cur : jsstring) (s : jsstring)
  : list jsstring :=
  match s with
  | [] => [rev cur]
  | c :: t =>
      if isSpace c then
        if inSep then splitWsFrom true [] t
        else rev cur :: splitWsFrom true [] t
      else splitWsFrom false (c :: cur) t
  end.

Definition splitWs (s : jsstring) : list jsstring := splitWsFrom false [] s.

(** [s.split(sep)] for a one-unit separator. *)
Fixpoint splitOnFrom (sep : ascii) (cur : jsstring) (s : jsstring)
  : list jsstring :=
  match s with
  | [] => [rev cur]
  | c :: t =>
      if bool_decide (c = sep) then rev cur :: splitOnFrom sep [] t
      else splitOnFrom sep (c :: cur) t
  end.

Definition splitOn (sep : ascii) (s : jsstring) : list jsstring :=
  splitOnFrom sep [] s.

(** [words.join(sep)] *)
Fixpoint join (sep : jsstring) (words : list jsstring) : jsstring :=
  match words with
  | [] => []
  | [w] => w
  | w :: rest => w ++ sep ++ join sep rest
  end.

(** [a || b] on strings. *)
Definition orString (a b : jsstring) : jsstring := if truthy a then a else b.

(** [.replace(/[^\w\s]/g, "")] and [.replace(/[^\w\s]/g, " ")] *)
Definition keepWordSpace (s : jsstring) : jsstring :=
  List.filter (fun c => isWord c || isSpace c) s.

Definition blankNonWordSpace (s : jsstring) : jsstring :=
  map (fun c => if isWord c || isSpace c then c else " "%char) s.

End Js.

Import Js.

(** ** Text normaliser ([normalizeText], server.js 197-203) *)

Module Normalizer.

(** The class of [/[.,\/#!$%\^&\*;:{}=\-_`~()]/]. *)
Definition isPunct (c : ascii) : bool :=
  existsb (fun p => bool_decide (c = p)) $".,/#!$%^&*;:{}=-_`~()".

(** [.replace(/[.,\/#!$%\^&\*;:{}=\-_`~()]/g, "")] *)
Definition removePunctuation (s : jsstring) : jsstring :=
  List.filter (fun c => negb (isPunct c)) s.

(** [.replace(/\s{2,}/g, " ")]: every maximal run of two or more
    white-space units becomes one SPACE; a single unit stays as it is.
    [skipping] holds while the scan is inside a run already replaced. *)
Fixpoint collapseFrom (skipping : bool) (s : jsstring) : jsstring :=
  match s with
  | [] => []
  | c :: t =>
      if isSpace c then
        if skipping then collapseFrom true t
        else
          match t with
          | d :: _ =>
              if isSpace d then " "%char :: collapseFrom true t
              else c :: collapseFrom false t
          | [] => [c]
          end
      else c :: collapseFrom false t
  end.

Definition normalizeSpaces (s : jsstring) : jsstring := collapseFrom false s.

Definition normalizeText (text : jsstring) : jsstring :=
  trim (normalizeSpaces (removePunctuation (toLowerCase text))).

(** The shape of a normalised text: every unit is left alone by the
    first two steps, no two white-space units are adjacent, and the text
    does not start with white space. *)
Definition settled (c : ascii) : Prop := lowerUnit c = c /\ isPunct c = false.

Definition headSpace (s : jsstring) : bool :=
  match s with c :: _ => isSpace c | [] => false end.

Fixpoint noRun (s : jsstring) : bool :=
  match s with
  | c :: t => negb (isSpace c && headSpace t) && noRun t
  | [] => true
  end.

End Normalizer.

Import Normalizer.

(** ** Keyword extraction ([extractTextBetweenKeywords], server.js 205-261) *)

Module Trigger.

(** A keyword is a string or [undefined]. [k || ""]: *)
Definition orEmpty (k : option jsstring) : jsstring := default [] k.

(** [k.length]; read only where the index of the normalised keyword was
    found, which needs a keyword that is a non-empty string. *)
Definition keywordLength (k : option jsstring) : Z := len (orEmpty k).

(** [.replace(/^[a-zA-Z]\s+/, "")] *)
Definition stripLeadingLetter (s : jsstring) : jsstring :=
  match s with
  | c :: d :: t => if isAlpha c && isSpace d then dropWhile isSpace t else s
  | _ => s
  end.

Definition extractTextBetweenKeywords
    (fullText : jsstring) (startKeyword endKeyword : option jsstring)
  : jsstring :=
  if negb (truthy fullText) || (len (trim fullText) =? 0) then []
  else
    let normalizedText := normalizeText fullText in
    let normalizedStart := normalizeText (orEmpty startKeyword) in
    let normalizedEnd := normalizeText (orEmpty endKeyword) in
    let startIndex :=
      if truthy normalizedStart then indexOf normalizedText normalizedStart
      else -1 in
    let endIndex :=
      if truthy normalizedEnd then lastIndexOf normalizedText normalizedEnd
      else -1 in
    if negb (startIndex =? -1) && negb (endIndex =? -1)
       && (endIndex >? startIndex)
       && (endIndex <=? startIndex + len normalizedStart + 1)
    then []
    else if negb (startIndex =? -1)
            && ((endIndex =? -1) || (endIndex <=? startIndex))
    then
      stripLeadingLetter
        (trim (substringFrom fullText (startIndex + keywordLength startKeyword)))
    else if negb (endIndex =? -1) && (startIndex =? -1)
    then trim (substring fullText 0 endIndex)
    else if negb (startIndex =? -1) && (endIndex >? startIndex)
    then
      stripLeadingLetter
        (trim (substring fullText
                 (startIndex + keywordLength startKeyword) endIndex))
    else trim fullText.

(** What the comments of the function call the text between the
    keywords: [fullText] is [before ++ start ++ between ++ end ++ after],
    and the result is [between], trimmed and cleaned. *)
Definition textBetween (between : jsstring) : jsstring :=
  stripLeadingLetter (trim between).

End Trigger.

Import Trigger.

(** ** Audio splicer ([combineWavBuffers], server.js 54-106) *)

Module Wav.

Abbreviation Buffer := (list byte).

Definition alloc (n : nat) : Buffer := repeat x00 n.

Definition byteValue (b : byte) : Z := Z.of_N (Byte.to_N b).

(** Storing a number into a [Uint8Array] slot keeps its low eight bits. *)
Definition toUint8 (v : Z) : byte :=
  byte_of_ascii (ascii_of_N (Z.to_N (v mod 256))).

(** [buf.readUInt16LE(offset)]: a [RangeError] when the two bytes are
    not both inside the buffer. *)
Definition readUInt16LE (buf : Buffer) (offset : nat) : option Z :=
  first ← buf !! offset;
  last ← buf !! (offset + 1)%nat;
  Some (byteValue first + byteValue last * 2 ^ 8).

(** [buf.readUInt32LE(offset)] *)
Definition readUInt32LE (buf : Buffer) (offset : nat) : option Z :=
  first ← buf !! offset;
  last ← buf !! (offset + 3)%nat;
  b1 ← buf !! (offset + 1)%nat;
  b2 ← buf !! (offset + 2)%nat;
  Some (byteValue first + byteValue b1 * 2 ^ 8 + byteValue b2 * 2 ^ 16
        + byteValue last * 2 ^ 24).

(** A JavaScript number that is the quotient of two integers: the
    header arithmetic divides a product of header fields by 8.  The
    source computes in doubles; a product of the three fields above
    [2 ^ 53] is rounded, and stays above [2 ^ 53], so the range check
    of the write answers as on the exact quotient. *)
Record Num := mkNum { numerator : Z; denominator : positive }.

Definition ofZ (z : Z) : Num := mkNum z 1.
Definition divNum (z : Z) (d : positive) : Num := mkNum z d.

(** [value > max || value < min] of Node's [checkInt], [min = 0]. *)
Definition outOfRange (v : Num) (max : Z) : bool :=
  (numerator v >? max * Zpos (denominator v)) || (numerator v <? 0).

(** The integer a typed-array store or [>>>] sees. *)
Definition truncNum (v : Num) : Z := numerator v / Zpos (denominator v).

(** [buf.writeUInt16LE(value, offset)]: [ERR_OUT_OF_RANGE] when the
    value is outside [0 .. 0xffff] or the bytes are outside the buffer. *)
Definition writeUInt16LE (value : Num) (offset : nat) (buf : Buffer)
  : option Buffer :=
  if outOfRange value 65535 then None
  else
    _ ← buf !! offset;
    _ ← buf !! (offset + 1)%nat;
    let v := truncNum value in
    Some (list_inserts offset [toUint8 v; toUint8 (v / 2 ^ 8)] buf).

(** [buf.writeUInt32LE(value, offset)] *)
Definition writeUInt32LE (value : Num) (offset : nat) (buf : Buffer)
  : option Buffer :=
  if outOfRange value 4294967295 then None
  else
    _ ← buf !! offset;
    _ ← buf !! (offset + 3)%nat;
    let v := truncNum value in
    Some (list_inserts offset
            [toUint8 v; toUint8 (v / 2 ^ 8); toUint8 (v / 2 ^ 16);
             toUint8 (v / 2 ^ 24)] buf).

(** [buf.write(text, offset)] for an ASCII text: the bytes that fit. *)
Definition write (text : jsstring) (offset : nat) (buf : Buffer) : Buffer :=
  list_inserts offset (map byte_of_ascii text) buf.

(** [source.copy(target, targetStart)] *)
Definition copy (source : Buffer) (targetStart : nat) (target : Buffer)
  : Buffer :=
  list_inserts targetStart source target.

Definition WAV_HEADER_SIZE : nat := 44.

(** The PCM payload the map of the source takes from one fragment. *)
Definition pcmData (buffer : Buffer) : Buffer :=
  if (length buffer <=? WAV_HEADER_SIZE)%nat then alloc 0
  else drop WAV_HEADER_SIZE buffer.

Definition combinedPCMOf (wavBuffers : list Buffer) : Buffer :=
  concat (List.filter (fun b => (0 <? length b)%nat) (map pcmData wavBuffers)).

(** [None]: the call throws. *)
Definition combineWavBuffers (wavBuffers : list Buffer) : option Buffer :=
  match wavBuffers with
  | [] => Some (alloc 0)
  | [only] => Some only
  | firstBuffer :: _ =>
      let combinedPCM := combinedPCMOf wavBuffers in
      let pcmLength := Z.of_nat (length combinedPCM) in
      numChannels ← readUInt16LE firstBuffer 22;
      sampleRate ← readUInt32LE firstBuffer 24;
      bitsPerSample ← readUInt16LE firstBuffer 34;
      let newWavBuffer := alloc (WAV_HEADER_SIZE + length combinedPCM) in
      let b := write $"RIFF" 0 newWavBuffer in
      b ← writeUInt32LE (ofZ (36 + pcmLength)) 4 b;
      let b := write $"WAVE" 8 b in
      let b := write $"fmt " 12 b in
      b ← writeUInt32LE (ofZ 16) 16 b;
      b ← writeUInt16LE (ofZ 1) 20 b;
      b ← writeUInt16LE (ofZ numChannels) 22 b;
      b ← writeUInt32LE (ofZ sampleRate) 24 b;
      b ← writeUInt32LE (divNum (sampleRate * numChannels * bitsPerSample) 8) 28 b;
      b ← writeUInt16LE (divNum (numChannels * bitsPerSample) 8) 32 b;
      b ← writeUInt16LE (ofZ bitsPerSample) 34 b;
      let b := write $"data" 36 b in
      b ← writeUInt32LE (ofZ pcmLength) 40 b;
      Some (copy combinedPCM WAV_HEADER_SIZE b)
  end.

(** Little-endian bytes of a header field. *)
Definition le16 (v : Z) : Buffer := [toUint8 v; toUint8 (v / 2 ^ 8)].
Definition le32 (v : Z) : Buffer :=
  [toUint8 v; toUint8 (v / 2 ^ 8); toUint8 (v / 2 ^ 16); toUint8 (v / 2 ^ 24)].

(** The canonical 44-byte header of spec section 6. *)
Definition canonicalHeader (numChannels sampleRate bitsPerSample pcmLength : Z)
  : Buffer :=
  map byte_of_ascii $"RIFF" ++ le32 (36 + pcmLength)
  ++ map byte_of_ascii $"WAVE" ++ map byte_of_ascii $"fmt "
  ++ le32 16 ++ le16 1 ++ le16 numChannels ++ le32 sampleRate
  ++ le32 (sampleRate * numChannels * bitsPerSample / 8)
  ++ le16 (numChannels * bitsPerSample / 8)
  ++ le16 bitsPerSample
  ++ map byte_of_ascii $"data" ++ le32 pcmLength.

(** A buffer that starts with a complete canonical header. *)
Definition hasCanonicalHeader (b : Buffer) : Prop :=
  exists numChannels sampleRate bitsPerSample,
    take WAV_HEADER_SIZE b
    = canonicalHeader numChannels sampleRate bitsPerSample
        (Z.of_nat (length b) - 44).

End Wav.

Import Wav.

(** ** Server state and what a handler emits *)

Module Server.

Inductive Role := magician | spectator.

(** [sessions[id]]: the [readyState] of the socket of each role that
    has joined. *)
Record Session := mkSession {
  magicianSocket : option nat;
  spectatorSocket : option nat
}.

(** [audioChunks[id]] *)
Record AudioSession := mkAudioSession {
  chunks : list Buffer;
  isRecording : bool;
  startKeyword : option jsstring;
  endKeyword : option jsstring;
  language : jsstring
}.

Record State := mkState {
  audioChunks : gmap (list ascii) AudioSession;
  sessions : gmap (list ascii) Session;
  sessionTopics : gmap (list ascii) (list ascii)
}.

(** The tables are plain objects and the maps above hold their own
    properties.  Under one of the names below, which every object
    inherits from [Object.prototype], a table without an own property
    still answers with the inherited value, and an assignment to
    ["__proto__"] adds no property.  A statement that depends on the
    difference assumes that its session id or role is none of them. *)
Definition OBJECT_PROTOTYPE_NAMES : list jsstring :=
  map list_ascii_of_string
    ["constructor"; "__defineGetter__"; "__defineSetter__"; "hasOwnProperty";
     "__lookupGetter__"; "__lookupSetter__"; "isPrototypeOf";
     "propertyIsEnumerable"; "toString"; "valueOf"; "__proto__";
     "toLocaleString"]%string.

Definition inheritedName (k : jsstring) : bool :=
  existsb (eqs k) OBJECT_PROTOTYPE_NAMES.

(** The JSON messages the server sends, by [type]; [timestamp] is left
    out. *)
Inductive Message :=
| transcript_msg (text : jsstring)
| keyword_detected (keyword transcript : jsstring)
| no_recording_error (error message : jsstring)
| diarization_error (error message : jsstring)
| magic_transcript (text : jsstring)
| summary_msg (summary topic : jsstring)
| summarize_complete (summary topic : jsstring).

Inductive Effect :=
| Send (sessionId : jsstring) (to : Role) (m : Message)
| Diarize (audio : Buffer) (sessionId : jsstring) (language : jsstring)
          (startKeyword endKeyword : option jsstring).

Definition socketOf (r : Role) (s : Session) : option nat :=
  match r with
  | magician => magicianSocket s
  | spectator => spectatorSocket s
  end.

(** [sessions[sessionId]?.role?.readyState === 1] *)
Definition isOpen (st : State) (sessionId : jsstring) (r : Role) : bool :=
  match sessions st !! sessionId with
  | Some s => bool_decide (socketOf r s = Some 1%nat)
  | None => false
  end.

Definition sendTo (st : State) (sessionId : jsstring) (r : Role) (m : Message)
  : list Effect :=
  if isOpen st sessionId r then [Send sessionId r m] else [].

Definition setAudio (st : State) (sessionId : jsstring) (a : AudioSession)
  : State :=
  mkState (<[sessionId := a]> (audioChunks st)) (sessions st) (sessionTopics st).

Definition setTopic (st : State) (sessionId : jsstring) (topic : jsstring)
  : State :=
  mkState (audioChunks st) (sessions st) (<[sessionId := topic]> (sessionTopics st)).

End Server.

Import Server.

(** ** Diarization pipeline ([processDiarization], server.js 265-555) *)

Module Pipeline.

(** The answers of the external services.  [None] is a call that
    throws or rejects.
    - [analyzeText text language]: the summary text and the first topic of
      the Summarization Service's reply, each possibly absent.
    - [chatCompletion text]: the content of the AI Topic Service's reply.
    - [translate n text target]: the [text] field of the translation
      reply to the [n]-th call of a run, possibly absent. *)
Record Services := mkServices {
  analyzeText : jsstring -> jsstring -> option (option jsstring * option jsstring);
  chatCompletion : jsstring -> option jsstring;
  translate : nat -> jsstring -> jsstring -> option (option jsstring)
}.

(** The transcription reply: words with optional speaker labels. *)
Record Word := mkWord {
  speaker : option nat;
  punctuated_word : option jsstring;
  word : jsstring
}.

Record Alternative := mkAlternative {
  transcript : option jsstring;
  words : option (list Word)
}.

Definition Channel := list Alternative.

Inductive Transcription :=
| TranscribeThrows
| TranscribeError
| TranscribeResult (channels : list Channel).

(** [summarizeTextWithDeepgram] (108-129) *)
Definition summarizeTextWithDeepgram (svc : Services) (text language : jsstring)
  : jsstring * option jsstring :=
  match analyzeText svc text language with
  | Some (summaryText, topic) =>
      (orString (orEmpty summaryText) $"No summary available.",
       match topic with
       | Some (c :: t) => Some (c :: t)
       | _ => None
       end)
  | None => ($"Error summarizing.", None)
  end.

(** [translateText] (131-144); the text may be [undefined]. *)
Definition translateText (svc : Services) (call : nat)
    (text : option jsstring) (targetLanguage : jsstring) : option jsstring :=
  match text with
  | None => None
  | Some t =>
      if negb (truthy t) || (len (trim t) =? 0) then text
      else
        match translate svc call t targetLanguage with
        | Some resultText => resultText
        | None => text
        end
  end.

(** [extractExactTopic] (146-194) *)
Definition extractExactTopic (svc : Services) (text : jsstring) : jsstring :=
  if negb (truthy text) || (len (trim text) =? 0) then []
  else
    match chatCompletion svc text with
    | Some content => trim content
    | None =>
        let words := List.filter (fun w => len w >? 3) (splitWs text) in
        orString (join $" " (take 3 words)) (substring text 0 20)
    end.

(** Lines 316-354: the per-speaker transcripts and the full transcript. *)
Definition addWord (speakers : gmap nat (list ascii)) (w : Word)
  : gmap nat (list ascii) :=
  let sp := default 0%nat (speaker w) in
  <[sp := default [] (speakers !! sp)
          ++ orString (orEmpty (punctuated_word w)) (word w) ++ $" "]> speakers.

Definition alternativesOf (channels : list Channel) : list Alternative :=
  concat channels.

Definition speakersOf (channels : list Channel) : gmap nat (list ascii) :=
  fold_left
    (fun speakers alt => fold_left addWord (default [] (words alt)) speakers)
    (alternativesOf channels) ∅.

Definition fullTranscriptOf (channels : list Channel) : jsstring :=
  fold_left
    (fun full alt =>
       match transcript alt with
       | Some (c :: t) => full ++ (c :: t) ++ $" "
       | _ => full
       end)
    (alternativesOf channels) [].

(** Lines 374-406: speaker 0 when it has text, else the full transcript,
    else nothing. *)
Definition selectTranscript (channels : list Channel) : option jsstring :=
  let speakers := speakersOf channels in
  let fullTranscript := fullTranscriptOf channels in
  match speakers !! 0%nat with
  | Some (c :: t) =>
      if len (trim (c :: t)) >? 0 then Some (trim (c :: t))
      else if len (trim fullTranscript) >? 0 then Some (trim fullTranscript)
      else None
  | _ =>
      if len (trim fullTranscript) >? 0 then Some (trim fullTranscript)
      else None
  end.

(** Lines 459-496: the values of [summary] and [topic] when the language
    branch is left.  Either may be [undefined] after a translation reply
    without text. *)
Definition languageBranch (svc : Services) (filteredText language : jsstring)
  : option jsstring * option jsstring :=
  if startsWith $"en" (toLowerCase language) then
    let dgResult := summarizeTextWithDeepgram svc filteredText language in
    let summary := fst dgResult in
    let topic := extractExactTopic svc filteredText in
    (Some summary, Some topic)
  else
    match translateText svc 1 (Some filteredText) $"en" with
    | Some translatedTranscript =>
        let dgResult := summarizeTextWithDeepgram svc translatedTranscript $"en" in
        let summary := translateText svc 2 (Some (fst dgResult)) language in
        let englishTopic := extractExactTopic svc translatedTranscript in
        let topic := translateText svc 3 (Some englishTopic) language in
        (summary, topic)
    | None =>
        (* [translatedTranscript.substring] throws: the [catch] of 491 *)
        (Some filteredText, Some (join $" " (take 4 (splitOn " " filteredText))))
    end.

(** The fallback of lines 501-502. *)
Definition fallbackTopic (extractedSummary : jsstring) : jsstring :=
  let summaryWords := List.filter (fun w => len w >? 2) (splitWs extractedSummary) in
  orString (join $" " (take 2 summaryWords)) $"speech topic".

(** Lines 498-503: the value of [extractedTopic] after the final
    fallback. *)
Definition finalTopic (extractedTopic : option jsstring)
    (extractedSummary : jsstring) : jsstring :=
  match extractedTopic with
  | None => fallbackTopic extractedSummary
  | Some t =>
      if negb (truthy t) || eqs t $"null" || (len (trim t) =? 0)
         || eqs t $"unknown topic"
      then fallbackTopic extractedSummary
      else t
  end.

(** Lines 450-538, from the filtered text to the delivery.  [summary] and
    [topic] are assigned in the language branch and assigned again at
    506-507 from [extractedSummary] and [extractedTopic], which the
    branch never writes. *)
Definition summarizeAndDeliver (svc : Services) (st : State)
    (sessionId language filteredText : jsstring) : State * list Effect :=
  let extractedTopic : option jsstring := None in
  let extractedSummary := filteredText in
  let '(summary, topic) := languageBranch svc filteredText language in
  let extractedTopic := finalTopic extractedTopic extractedSummary in
  let summary := extractedSummary in
  let topic := extractedTopic in
  (setTopic st sessionId topic,
   sendTo st sessionId spectator (summary_msg summary topic)
   ++ sendTo st sessionId magician (summarize_complete summary topic)).

Definition processDiarization (svc : Services) (transcription : Transcription)
    (st : State) (sessionId language : jsstring)
    (startKeyword endKeyword : option jsstring) : State * list Effect :=
  match transcription with
  | TranscribeThrows =>
      (st, sendTo st sessionId magician
             (diarization_error $"processing_error"
                $"Error processing audio. Please try again."))
  | TranscribeError =>
      (st, sendTo st sessionId magician
             (diarization_error $"deepgram_error"
                $"Transcription failed. Please try again."))
  | TranscribeResult channels =>
      match selectTranscript channels with
      | None =>
          (st, sendTo st sessionId magician
                 (diarization_error $"no_speaker_detected"
                    $"No speech detected. Please speak louder or try again."))
      | Some transcriptToProcess =>
          let preview :=
            sendTo st sessionId magician
              (magic_transcript (trim transcriptToProcess)) in
          let filteredText :=
            extractTextBetweenKeywords transcriptToProcess startKeyword endKeyword in
          let cleanFilteredText := trim (keepWordSpace filteredText) in
          if negb (truthy cleanFilteredText) || (len cleanFilteredText <? 2) then
            (st, preview ++
                 sendTo st sessionId magician
                   (no_recording_error $"text_too_short"
                      $"No meaningful speech detected. Please speak at least 2 characters of text."))
          else
            let '(st', sent) :=
              summarizeAndDeliver svc st sessionId language filteredText in
            (st', preview ++ sent)
      end
  end.

(** The topics the post-validation rejects. *)
Definition rejectedTopic (computed : option jsstring) : Prop :=
  computed = None \/ computed = Some [] \/ computed = Some $"null"
  \/ (exists t, computed = Some t /\ trim t = [])
  \/ computed = Some $"unknown topic".

End Pipeline.

Import Pipeline.

(** ** Fragment submission and manual control (server.js 557-790, 841-938) *)

Module Handlers.

(** The multipart form of [POST /api/process-audio-chunk]; a field that
    is missing is [None]. *)
Record ChunkRequest := mkChunkRequest {
  req_sessionId : jsstring;
  req_startKeyword : option jsstring;
  req_endKeyword : option jsstring;
  req_isMagicActive : option jsstring;
  req_language : option jsstring;
  req_file : option Buffer
}.

Inductive Response :=
| json (transcript : jsstring) (keywordDetected : bool) (keyword : option jsstring)
| status400
| status500.

(** [a || b] where [a] and [b] are strings or [undefined]. *)
Definition orKeyword (a b : option jsstring) : option jsstring :=
  match a with
  | Some (_ :: _) => a
  | _ => b
  end.

(** [k ? normalizeText(k) : ""] *)
Definition normalizedKeyword (k : option jsstring) : jsstring :=
  match k with
  | Some (c :: t) => normalizeText (c :: t)
  | _ => []
  end.

(** [hasStartKeyword] and [hasEndKeyword] (647-652). *)
Definition hasKeyword (transcript : jsstring) (k : option jsstring) : bool :=
  truthy (normalizedKeyword k)
  && includes (normalizeText transcript) (normalizedKeyword k).

Definition withChunks (a : AudioSession) (cs : list Buffer) : AudioSession :=
  mkAudioSession cs (isRecording a) (startKeyword a) (endKeyword a) (language a).

Definition withRecording (a : AudioSession) (r : bool) : AudioSession :=
  mkAudioSession (chunks a) r (startKeyword a) (endKeyword a) (language a).

(** Lines 609-625: the session's entry, created on first use, with the
    latest non-empty keywords and language written into it. *)
Definition refreshed (st : State) (req : ChunkRequest) : AudioSession :=
  let language := default $"en" (req_language req) in
  let existing :=
    default
      (mkAudioSession [] false (req_startKeyword req) (req_endKeyword req) language)
      (audioChunks st !! req_sessionId req) in
  mkAudioSession (chunks existing) (isRecording existing)
    (orKeyword (req_startKeyword req) (startKeyword existing))
    (orKeyword (req_endKeyword req) (endKeyword existing))
    (orString language (Server.language existing)).

(** The handler.  [transcription] is the transcript the Transcription
    Service gives for the fragment, [None] when the call rejects. *)
Definition processAudioChunk (req : ChunkRequest)
    (transcription : option jsstring) (st : State)
  : State * list Effect * Response :=
  match req_file req with
  | None => (st, [], status400)
  | Some audioBuffer =>
      match transcription with
      | None => (st, [], status500)
      | Some transcript =>
          let sessionId := req_sessionId req in
          let language := default $"en" (req_language req) in
          let a := refreshed st req in
          let live := sendTo st sessionId magician (transcript_msg transcript) in
          let hasStartKeyword := hasKeyword transcript (req_startKeyword req) in
          let hasEndKeyword := hasKeyword transcript (req_endKeyword req) in
          let isMagicActive := req_isMagicActive req in
          if hasStartKeyword && bool_decide (isMagicActive = Some $"false") then
            let a := withRecording (withChunks a [audioBuffer]) true in
            (setAudio st sessionId a,
             live ++ sendTo st sessionId magician
                       (keyword_detected $"start" transcript),
             json transcript true (Some $"start"))
          else
            let a :=
              if isRecording a && negb hasEndKeyword
              then withChunks a (chunks a ++ [audioBuffer]) else a in
            if hasEndKeyword && bool_decide (isMagicActive = Some $"true") then
              let a := withChunks (withRecording a false) (chunks a ++ [audioBuffer]) in
              let notify :=
                sendTo st sessionId magician (keyword_detected $"end" transcript) in
              if (0 <? length (chunks a))%nat then
                match combineWavBuffers (chunks a) with
                | Some combinedAudio =>
                    (setAudio st sessionId (withChunks a []),
                     live ++ notify ++
                     [Diarize combinedAudio sessionId
                        (orString (Server.language a) language)
                        (startKeyword a) (endKeyword a)],
                     json transcript true (Some $"end"))
                | None => (setAudio st sessionId a, live ++ notify, status500)
                end
              else
                (setAudio st sessionId a,
                 live ++ notify ++
                 sendTo st sessionId magician
                   (no_recording_error $"no_chunks_captured"
                      $"No audio captured during magic. Recording was too short or silent."),
                 json transcript true (Some $"end"))
            else
              (setAudio st sessionId a,
               live ++
               (if bool_decide (isMagicActive = Some $"true") && truthy transcript
                then sendTo st sessionId spectator (transcript_msg transcript)
                else []),
               json transcript false None)
      end
  end.

(** The [manual_start] message (841-881). *)
Definition manualStart (sessionId : jsstring)
    (startKeyword endKeyword language : option jsstring) (st : State)
  : State * list Effect :=
  let language := default $"en" language in
  let a := mkAudioSession [] true startKeyword endKeyword language in
  (setAudio st sessionId a,
   sendTo st sessionId magician (keyword_detected $"start" $"[Manual Start]")).

(** The [manual_end] message (883-938).  A throw of the splicer is
    caught by the handler of the socket, after [isRecording] was
    written. *)
Definition manualEnd (sessionId : jsstring) (language : option jsstring)
    (st : State) : State * list Effect :=
  let language := default $"en" language in
  match audioChunks st !! sessionId with
  | Some a =>
      if (0 <? length (chunks a))%nat then
        let a := withRecording a false in
        match combineWavBuffers (chunks a) with
        | Some combinedAudio =>
            (setAudio st sessionId (withChunks a []),
             [Diarize combinedAudio sessionId
                (orString (Server.language a) language)
                (startKeyword a) (endKeyword a)])
        | None => (setAudio st sessionId a, [])
        end
      else
        let wasRecording := isRecording a in
        (st,
         sendTo st sessionId magician
           (no_recording_error
              (if wasRecording then $"no_chunks_captured" else $"magic_not_started")
              (if wasRecording
               then $"No audio captured during magic. Recording was too short or silent."
               else $"Magic was never started. Please start magic before stopping.")))
  | None =>
      (st,
       sendTo st sessionId magician
         (no_recording_error $"magic_not_started"
            $"Magic was never started. Please start magic before stopping."))
  end.

(** The recording state of a session, as the spec names it: a session
    without an entry has never recorded. *)
Definition recordingOf (st : State) (sessionId : jsstring) : bool :=
  match audioChunks st !! sessionId with
  | Some a => isRecording a
  | None => false
  end.

Definition chunksOf (st : State) (sessionId : jsstring) : list Buffer :=
  match audioChunks st !! sessionId with
  | Some a => chunks a
  | None => []
  end.

End Handlers.

Import Handlers.

(** ** Weighted frequency strategy ([extractTopicByFrequency], topic
       extractor module) *)

Module Topic.

Definition STOP_WORDS : list jsstring :=
  map list_ascii_of_string
    ["i"; "me"; "my"; "myself"; "we"; "our"; "ours"; "ourselves"; "you"; "your"; "yours";
     "yourself"; "yourselves"; "he"; "him"; "his"; "himself"; "she"; "her"; "hers";
     "herself"; "it"; "its"; "itself"; "they"; "them"; "their"; "theirs"; "themselves";
     "what"; "which"; "who"; "whom"; "this"; "that"; "these"; "those"; "am"; "is"; "are";
     "was"; "were"; "be"; "been"; "being"; "have"; "has"; "had"; "having"; "do"; "does";
     "did"; "doing"; "a"; "an"; "the"; "and"; "but"; "if"; "or"; "because"; "as"; "until";
     "while"; "of"; "at"; "by"; "for"; "with"; "about"; "against"; "between"; "into";
     "through"; "during"; "before"; "after"; "above"; "below"; "up"; "down"; "in"; "out";
     "on"; "off"; "over"; "under"; "again"; "further"; "then"; "once"; "here"; "there";
     "when"; "where"; "why"; "how"; "all"; "any"; "both"; "each"; "few"; "more"; "most";
     "other"; "some"; "such"; "no"; "nor"; "not"; "only"; "own"; "same"; "so"; "than";
     "too"; "very"; "s"; "t"; "can"; "will"; "just"; "don"; "should"; "now"; "yes"]%string.

(** [STOP_WORDS.has(word)] *)
Definition isStopWord (w : jsstring) : bool := existsb (eqs w) STOP_WORDS.

(** The filter of lines 1078 and 1099. *)
Definition meaningful (w : jsstring) : bool := (len w >? 2) && negb (isStopWord w).

(** *** The cue-phrase patterns

    The five patterns use literals, [\s+], one capture group [(\w+)],
    alternation and optional groups.  Matching backtracks: a greedy
    quantifier gives up units one at a time, an optional group is tried
    first and skipped after. *)
Inductive Regex :=
| Lit (text : jsstring)
| Spaces
| WordGroup
| Seq (a b : Regex)
| Alt (a b : Regex)
| Opt (a : Regex).

(** The [i] flag on an ASCII literal: letters compare by their capital. *)
Definition upperAZ (c : ascii) : ascii :=
  if isLowerAZ c then ascii_of_N (code c - 32) else c.

Fixpoint matchLit (p s : jsstring) : option jsstring :=
  match p, s with
  | [], _ => Some s
  | _ :: _, [] => None
  | a :: p', b :: s' =>
      if bool_decide (upperAZ a = upperAZ b) then matchLit p' s' else None
  end.

Section Backtracking.

Context {R : Type}.

(** [\s+], the longest run first. *)
Fixpoint matchSpaces (s : jsstring) (k : jsstring -> option R) : option R :=
  match s with
  | [] => None
  | c :: t =>
      if isSpace c then
        match matchSpaces t k with
        | Some r => Some r
        | None => k t
        end
      else None
  end.

(** [(\w+)], the longest word first; [acc] is the part read, reversed. *)
Fixpoint matchWord (acc : jsstring) (s : jsstring)
    (k : jsstring -> jsstring -> option R) : option R :=
  match s with
  | [] => None
  | c :: t =>
      if isWord c then
        match matchWord (c :: acc) t k with
        | Some r => Some r
        | None => k (rev (c :: acc)) t
        end
      else None
  end.

Fixpoint matchRegex (r : Regex) (s : jsstring) (group : option jsstring)
    (k : jsstring -> option jsstring -> option R) : option R :=
  match r with
  | Lit text =>
      match matchLit text s with
      | Some rest => k rest group
      | None => None
      end
  | Spaces => matchSpaces s (fun rest => k rest group)
  | WordGroup => matchWord [] s (fun w rest => k rest (Some w))
  | Seq a b => matchRegex a s group (fun rest g => matchRegex b rest g k)
  | Alt a b =>
      match matchRegex a s group k with
      | Some res => Some res
      | None => matchRegex b s group k
      end
  | Opt a =>
      match matchRegex a s group k with
      | Some res => Some res
      | None => k s group
      end
  end.

End Backtracking.

(** A match that starts at the head of [s]: the capture group and the
    text after the match. *)
Definition matchAt (r : Regex) (s : jsstring) : option (jsstring * jsstring) :=
  matchRegex r s None (fun rest g => Some (default [] g, rest)).

(** [[...text.matchAll(pattern)]] with the [g] flag, as the list of the
    capture groups: the leftmost match, then on from its end.  [skip]
    counts the units of the last match still to pass. *)
Fixpoint matchAllFrom (r : Regex) (skip : nat) (s : jsstring) : list jsstring :=
  match s with
  | [] => []
  | _ :: t =>
      match skip with
      | S n => matchAllFrom r n t
      | O =>
          match matchAt r s with
          | Some (g, rest) => g :: matchAllFrom r (length s - length rest - 1) t
          | None => matchAllFrom r 0 t
          end
      end
  end.

Definition matchAll (r : Regex) (text : jsstring) : list jsstring :=
  matchAllFrom r 0 text.

(** [\s+(?:the\s+)?(\w+)], the tail of every pattern. *)
Definition referencedWord : Regex :=
  Seq Spaces (Seq (Opt (Seq (Lit $"the") Spaces)) WordGroup).

Definition topicIndicators : list (Regex * Z) :=
  [ (Seq (Lit $"i am ")
       (Seq (Opt (Lit $"objectively ")) (Seq (Lit $"talking about") referencedWord)), 10);
    (Seq (Alt (Lit $"this is about") (Lit $"it is about")) referencedWord, 8);
    (Seq (Lit $"i ")
       (Seq (Alt (Lit $"like") (Alt (Lit $"love") (Lit $"prefer"))) referencedWord), 6);
    (Seq (Alt (Lit $"talking about") (Alt (Lit $"discussing") (Lit $"mentioning")))
       referencedWord, 5);
    (Seq (Lit $"so i like") referencedWord, 7) ].

(** *** The [wordCount] object

    Own properties in insertion order.  Two lower-case keys are
    inherited from [Object.prototype]: reading ["constructor"] or
    ["__proto__"] gives an object, the sum with it is a string, and the
    entry (never written for ["__proto__"]) does not pass the numeric
    test [count >= 2]; they are left out of the object here. *)
Definition inheritedKey (w : jsstring) : bool :=
  eqs w $"constructor" || eqs w $"__proto__".

Definition WordCount := list (jsstring * Z).

Fixpoint lookupCount (wc : WordCount) (w : jsstring) : Z :=
  match wc with
  | [] => 0
  | (k, c) :: rest => if eqs k w then c else lookupCount rest w
  end.

Fixpoint addCount (wc : WordCount) (w : jsstring) (n : Z) : WordCount :=
  match wc with
  | [] => [(w, n)]
  | (k, c) :: rest =>
      if eqs k w then (k, c + n) :: rest else (k, c) :: addCount rest w n
  end.

(** [wordCount[word] = (wordCount[word] || 0) + n] *)
Definition bump (wc : WordCount) (w : jsstring) (n : Z) : WordCount :=
  if inheritedKey w then wc else addCount wc w n.

(** A key that is an array index (canonical decimal below [2^32 - 1])
    is listed before the other keys, in ascending order. *)
Definition decimalValue (w : jsstring) : N :=
  fold_left (fun v c => (v * 10 + (code c - 48))%N) w 0%N.

Definition arrayIndex (w : jsstring) : option N :=
  match w with
  | [] => None
  | c :: t =>
      if forallb isDigit w
         && (negb (code c =? 48)%N || match t with [] => true | _ => false end)
         && (decimalValue w <? 4294967295)%N
      then Some (decimalValue w)
      else None
  end.

Fixpoint insertIndex (e : N * (jsstring * Z)) (l : list (N * (jsstring * Z)))
  : list (N * (jsstring * Z)) :=
  match l with
  | [] => [e]
  | x :: rest => if (fst e <? fst x)%N then e :: l else x :: insertIndex e rest
  end.

(** [Object.entries(wordCount)] *)
Definition entries (wc : WordCount) : list (jsstring * Z) :=
  let indexed :=
    omap (fun e => match arrayIndex (fst e) with
                   | Some i => Some (i, e)
                   | None => None
                   end) wc in
  map snd (fold_right insertIndex [] indexed)
  ++ List.filter (fun e => match arrayIndex (fst e) with
                           | Some _ => false
                           | None => true
                           end) wc.

(** [.sort((a, b) => b[1] - a[1])]; the sort is stable. *)
Fixpoint insertByCount (e : jsstring * Z) (l : list (jsstring * Z))
  : list (jsstring * Z) :=
  match l with
  | [] => [e]
  | x :: rest => if snd x >? snd e then x :: insertByCount e rest else e :: l
  end.

Definition sortByCount (l : list (jsstring * Z)) : list (jsstring * Z) :=
  fold_right insertByCount [] l.

(** Lines 1075-1084. *)
Definition tokens (text : jsstring) : list jsstring :=
  List.filter meaningful (splitWs (blankNonWordSpace (toLowerCase text))).

Definition countWords (words : list jsstring) : WordCount :=
  fold_left (fun wc w => bump wc w 1) words [].

(** Lines 1095-1104. *)
Definition boost (text : jsstring) (wc : WordCount) (indicator : Regex * Z)
  : WordCount :=
  fold_left
    (fun wc m =>
       let w := toLowerCase m in
       if meaningful w then bump wc w (snd indicator) else wc)
    (matchAll (fst indicator) text) wc.

Definition scores (text : jsstring) : WordCount :=
  fold_left (boost text) topicIndicators (countWords (tokens text)).

(** [None] is the [null] the function returns. *)
Definition extractTopicByFrequency (text : jsstring) : option jsstring :=
  let frequentWords :=
    sortByCount (List.filter (fun e => snd e >=? 2) (entries (scores text))) in
  match frequentWords with
  | e :: _ => Some (fst e)
  | [] => None
  end.

(** How often a word occurs in the text, as the strategy tokenises it. *)
Definition occurrences (text w : jsstring) : Z :=
  lookupCount (countWords (tokens text)) w.

(** The head of a list of entries has the greatest count. *)
Definition headIsGreatest (l : list (jsstring * Z)) : Prop :=
  match l with
  | [] => True
  | x :: _ => forall y, In y l -> snd y <= snd x
  end.

End Topic.

Import Topic.

(** ** Sample inputs *)

Module Samples.

(** A mono, 16 kHz, 16-bit fragment with the given payload. *)
Definition wavFragment (payload : Buffer) : Buffer :=
  canonicalHeader 1 16000 16 (Z.of_nat (length payload)) ++ payload.

(** An upload cut short after ten bytes. *)
Definition truncatedFragment : Buffer := take 10 (wavFragment [x01; x02]).

(** Services that answer every English text alike. *)
Definition sampleServices : Services :=
  mkServices
    (fun _ _ => Some (Some $"A greeting to the world.", Some $"greeting"))
    (fun _ => Some $"Greeting")
    (fun _ text _ => Some (Some text)).

(** A session with both participants connected. *)
Definition bothConnected (sessionId : jsstring) : State :=
  mkState ∅ {[ sessionId := mkSession (Some 1%nat) (Some 1%nat) ]} ∅.

(** The same session while it records, one fragment buffered. *)
Definition recordingState : State :=
  mkState
    {[ $"s1" := mkAudioSession [wavFragment [x01]] true
                  (Some $"magic start") (Some $"magic stop") $"en" ]}
    {[ $"s1" := mkSession (Some 1%nat) (Some 1%nat) ]} ∅.

Definition sampleTranscription : Transcription :=
  TranscribeResult
    [[mkAlternative (Some $"magic start hello big world magic stop") None]].

Definition sampleRequest (isMagicActive : string) (file : Buffer) : ChunkRequest :=
  mkChunkRequest $"s1" (Some $"magic start") (Some $"magic stop")
    (Some $isMagicActive) (Some $"en") (Some file).

End Samples.

Import Samples.

(** ** Session registry (the socket handlers [join], [topic_searched]
       and [close], server.js 792-963) *)

Module Registry.

(** The four tables of the server.  A socket is named by a number; the
    role object of a session maps a role to the socket that joined last
    under it.  [speechHistory] holds an empty list for a session and is
    never written otherwise, so the set of its keys stands for it.
    Session identifiers and roles are keys that [Object.prototype] does
    not define. *)
Record World := mkWorld {
  connections : gmap (list ascii) (gmap (list ascii) nat);
  speechHistory : gset (list ascii);
  buffers : gmap (list ascii) AudioSession;
  topics : gmap (list ascii) (list ascii)
}.

(** What the registry sends, by [type]: [joined], the [summary] message
    that carries only the stored topic, and [ready]. *)
Inductive Reply :=
| joined (sessionId role : jsstring)
| stored_topic (topic : jsstring)
| ready.

(** The role object of a session after [role] was given to [ws]. *)
Definition rolesAfterJoin (ws : nat) (sessionId role : jsstring) (w : World)
  : gmap (list ascii) nat :=
  <[role := ws]> (default ∅ (connections w !! sessionId)).

(** Lines 826-838: [ready] to the two participants once both slots are
    taken, each only when its socket is open. *)
Definition readyReplies (readyState : nat -> nat) (roles : gmap (list ascii) nat)
  : list (nat * Reply) :=
  match roles !! $"magician", roles !! $"spectator" with
  | Some m, Some s =>
      (if bool_decide (readyState m = 1%nat) then [(m, ready)] else [])
      ++ (if bool_decide (readyState s = 1%nat) then [(s, ready)] else [])
  | _, _ => []
  end.

(** The [join] message (800-839), received on socket [ws].
    [readyState] gives the state of every socket at that moment. *)
Definition join (readyState : nat -> nat) (ws : nat)
    (sessionId role : jsstring) (w : World) : World * list (nat * Reply) :=
  let roles := rolesAfterJoin ws sessionId role w in
  let history :=
    match connections w !! sessionId with
    | Some _ => speechHistory w
    | None => {[ sessionId ]} ∪ speechHistory w
    end in
  (mkWorld (<[sessionId := roles]> (connections w)) history (buffers w) (topics w),
   [(ws, joined sessionId role)]
   ++ (if eqs role $"spectator" then
         match topics w !! sessionId with
         | Some (c :: t) => [(ws, stored_topic (c :: t))]
         | _ => []
         end
       else [])
   ++ readyReplies readyState roles).



(** The state the fragment handler, the manual messages and the pipeline
    see: of a session's role object they read the [readyState] of the
    two participants. *)
Definition sessionOf (readyState : nat -> nat) (roles : gmap (list ascii) nat)
  : Session :=
  mkSession (readyState <$> roles !! $"magician")
            (readyState <$> roles !! $"spectator").

Definition stateOf (readyState : nat -> nat) (w : World) : State :=
  mkState (buffers w) (sessionOf readyState <$> connections w) (topics w).


End Registry.

(** ** The topic extractor's other strategies and the chain
       ([extractTopicWithGemini], [extractTopicByPatterns],
       [extractFallbackTopic], [extractMainTopic]) *)

Module TopicChain.

(** The generative service, for one text: not configured ([genAI] is
    [null]), a call that throws, or a reply. *)
Inductive Gemini :=
| GeminiAbsent
| GeminiThrows
| GeminiReplies (reply : jsstring).

(** [extractTopicWithGemini]: the reply trimmed and lower-cased is
    accepted when it has one to three words. *)
Definition extractTopicWithGemini (service : Gemini) : option jsstring :=
  match service with
  | GeminiAbsent => None
  | GeminiThrows => None
  | GeminiReplies reply =>
      let topic := toLowerCase (trim reply) in
      let words := List.filter (fun w => len w >? 0) (splitWs topic) in
      if (Z.of_nat (length words) <=? 3) && (Z.of_nat (length words) >? 0)
      then Some (Js.join $" " words)
      else None
  end.

(** [(?:the )?([\w]+)], the tail of most patterns. *)
Definition theWord : Regex := Seq (Opt (Lit $"the ")) WordGroup.

Definition patterns : list Regex :=
  [ Seq (Lit $"i am ")
      (Seq (Opt (Lit $"objectively ")) (Seq (Lit $"talking about ") theWord));
    Seq (Lit $"this is about ") theWord;
    Seq (Lit $"the main ")
      (Seq (Alt (Lit $"thing") (Alt (Lit $"topic") (Lit $"subject")))
         (Seq (Lit $" is ") theWord));
    Seq (Lit $"let me tell you about ") theWord;
    Seq (Lit $"i ")
      (Seq (Alt (Lit $"like") (Alt (Lit $"love") (Lit $"prefer")))
         (Seq (Lit $" ") theWord));
    Seq (Lit $"my favorite ") (Seq (Opt (Lit $"is ")) theWord);
    Seq (Lit $"the ")
      (Seq WordGroup
         (Seq (Alt (Lit $" is") (Alt (Lit $" are") (Alt (Lit $" was") (Lit $" were"))))
            (Seq (Lit $" ")
               (Alt (Lit $"very") (Alt (Lit $"really") (Alt (Lit $"so") (Lit $"quite")))))));
    Seq (Lit $"this ") (Seq WordGroup (Alt (Lit $" is") (Lit $" was")));
    Seq (Lit $"yes")
      (Seq (Opt (Lit $"."))
         (Seq (Lit $" ")
            (Seq (Alt (Lit $"this") (Alt (Lit $"that") (Lit $"it")))
               (Seq (Lit $" is ")
                  (Seq (Opt (Lit $"a ")) (Seq (Opt (Lit $"very ")) theWord))))));
    Seq (Lit $"so i like ") theWord ].

(** The captures of one pattern that count: [match[1].trim().toLowerCase()],
    longer than two units and no stop word. *)
Definition countedCaptures (pattern : Regex) (text : jsstring) : list jsstring :=
  List.filter meaningful
    (map (fun m => toLowerCase (trim m)) (matchAll pattern text)).

(** The [patternMatches] object after the loops of lines 1143-1156:
    pattern [i] of [n] adds [n - i] for each counted capture.
    [index] is the number of patterns already done. *)
Fixpoint scorePatterns (total : Z) (index : Z) (ps : list Regex)
    (text : jsstring) (pm : WordCount) : WordCount :=
  match ps with
  | [] => pm
  | p :: rest =>
      scorePatterns total (index + 1) rest text
        (fold_left (fun pm w => addCount pm w (total - index))
           (countedCaptures p text) pm)
  end.

(** The table before the keys inherited from [Object.prototype] are
    looked at. *)
Definition patternMatchesOf (text : jsstring) : WordCount :=
  scorePatterns (Z.of_nat (length patterns)) 0 patterns text [].

(** [extractTopicByPatterns].  The capture ["__proto__"] is read as an
    object and its assignment is dropped, so it never becomes a key.
    The capture ["constructor"] becomes a key whose value is a string;
    the comparison [b[1] - a[1]] with it is [NaN], and the order the
    sort leaves is then the engine's: [engineChoice] names the entry it
    puts first.  Without that key the scores are numbers and the stable
    sort puts first the earliest entry with the greatest score. *)
Definition extractTopicByPatterns (engineChoice : nat) (text : jsstring)
  : option jsstring :=
  let table :=
    List.filter (fun e => negb (eqs (fst e) $"__proto__")) (patternMatchesOf text) in
  if existsb (fun e => eqs (fst e) $"constructor") table then
    match entries table with
    | [] => None
    | e :: rest =>
        Some (fst (nth (engineChoice mod length (e :: rest)) (e :: rest) e))
    end
  else
    match sortByCount (entries table) with
    | e :: _ => Some (fst e)
    | [] => None
    end.

(** [extractFallbackTopic] *)
Definition extractFallbackTopic (text : jsstring) : jsstring :=
  let words :=
    List.filter (fun w => (len w >? 3) && negb (isStopWord w))
      (splitWs (blankNonWordSpace (toLowerCase text))) in
  match words with
  | w :: _ => w
  | [] => $"unknown topic"
  end.

(** A strategy's answer counts when it is a non-empty string. *)
Definition answered (r : option jsstring) : option jsstring :=
  match r with
  | Some (c :: t) => Some (c :: t)
  | _ => None
  end.

(** [extractMainTopic]: the first strategy that answers. *)
Definition extractMainTopic (service : Gemini) (engineChoice : nat)
    (text : jsstring) : jsstring :=
  match answered (extractTopicWithGemini service) with
  | Some geminiTopic => geminiTopic
  | None =>
      match answered (extractTopicByFrequency text) with
      | Some frequencyTopic => frequencyTopic
      | None =>
          match answered (extractTopicByPatterns engineChoice text) with
          | Some patternTopic => patternTopic
          | None => extractFallbackTopic text
          end
      end
  end.

End TopicChain.

Import TopicChain.

(** ** Views of the transcription reply *)

Module Views.







Definition isDiarize (e : Effect) : bool :=
  match e with
  | Diarize _ _ _ _ _ => true
  | Send _ _ _ => false
  end.

Definition isRecordingError (e : Effect) : bool :=
  match e with
  | Send _ _ (no_recording_error _ _) => true
  | _ => false
  end.

(** A word as the extractor's strategies return it: units of [\w] that
    [toLowerCase] leaves alone, more than two of them, no stop word. *)
Definition lowerWordUnit (c : ascii) : bool :=
  isWord c && bool_decide (lowerUnit c = c).

Definition topicWord (w : jsstring) : bool :=
  meaningful w && forallb lowerWordUnit w.

(** The object has the key [k]. *)
Definition hasKey (wc : WordCount) (k : jsstring) : Prop :=
  exists count, In (k, count) wc.

End Views.

Import Views.

(** * Properties *)

Example normalizeText_sample :
  normalizeText $"  Hello,   Magic-Word!  " = $"hello magicword".
Proof. vm_compute. reflexivity. Qed.

(** ** The normaliser *)

Section NormalizerFacts.

(** Facts about single code units are decided on the 256 of them. *)
Ltac by_units c := destruct c as [[] [] [] [] [] [] [] []]; vm_compute; reflexivity.

Lemma lowerUnit_fixed (c : ascii) : lowerUnit (lowerUnit c) = lowerUnit c.
Proof. by_units c. Qed.

Lemma isPunct_lowerUnit (c : ascii) : isPunct (lowerUnit c) = isPunct c.
Proof. by_units c. Qed.

Lemma isSpace_lowerUnit (c : ascii) : isSpace (lowerUnit c) = isSpace c.
Proof. by_units c. Qed.

Lemma settled_space : settled " "%char.
Proof. split; reflexivity. Qed.

Lemma toLowerCase_settled s : Forall settled s -> toLowerCase s = s.
Proof.
  induction 1 as [|c s [Hc _] _ IH]; simpl; [reflexivity|].
  now rewrite Hc, IH.
Qed.

Lemma removePunctuation_settled s : Forall settled s -> removePunctuation s = s.
Proof.
  induction 1 as [|c s [_ Hc] _ IH]; simpl; [reflexivity|].
  unfold removePunctuation in *. simpl. now rewrite Hc, IH.
Qed.

Lemma settled_after_strip s : Forall settled (removePunctuation (toLowerCase s)).
Proof.
  induction s as [|c s IH]; simpl; [constructor|].
  unfold removePunctuation in *. simpl.
  destruct (isPunct (lowerUnit c)) eqn:Hp; simpl; [exact IH|].
  constructor; [|exact IH]. split; [apply lowerUnit_fixed | exact Hp].
Qed.

(** *** Dropping a prefix or a suffix *)

Lemma dropWhile_split {A} (p : A -> bool) (l : list A) :
  exists w, l = w ++ dropWhile p l /\ forallb p w = true.
Proof.
  induction l as [|x l [w [Hl Hw]]]; simpl.
  - exists []. now split.
  - destruct (p x) eqn:Hx.
    + exists (x :: w). simpl. rewrite Hx, Hw. split; [now f_equal | reflexivity].
    + exists []. now split.
Qed.

Lemma dropWhile_head {A} (p : A -> bool) (l : list A) :
  match dropWhile p l with x :: _ => p x = false | [] => True end.
Proof.
  induction l as [|x l IH]; simpl; [exact I|].
  destruct (p x) eqn:Hx; [exact IH | exact Hx].
Qed.

Lemma dropWhile_id {A} (p : A -> bool) (l : list A) :
  match l with x :: _ => p x = false | [] => True end -> dropWhile p l = l.
Proof. destruct l as [|x l]; simpl; [reflexivity|]. now intros ->. Qed.

Lemma dropWhile_all {A} (p : A -> bool) (l : list A) :
  forallb p l = true -> dropWhile p l = [].
Proof.
  induction l as [|x l IH]; simpl; [reflexivity|].
  destruct (p x); simpl; [exact IH | discriminate].
Qed.

Lemma Forall_dropWhile {A} (P : A -> Prop) p (l : list A) :
  Forall P l -> Forall P (dropWhile p l).
Proof.
  induction 1 as [|x l Hx Hl IH]; simpl; [constructor|].
  destruct (p x); [exact IH | now constructor].
Qed.

Lemma trimEnd_split s :
  exists w, s = trimEnd s ++ w /\ forallb isSpace w = true.
Proof.
  unfold trimEnd.
  destruct (dropWhile_split isSpace (rev s)) as [w [Hs Hw]].
  exists (rev w). split.
  - rewrite <- rev_app_distr, <- Hs. symmetry. apply rev_involutive.
  - rewrite forallb_forall in *. intros x Hx. apply Hw. now apply in_rev.
Qed.

Lemma Forall_trim (P : ascii -> Prop) s : Forall P s -> Forall P (trim s).
Proof.
  intros H. unfold trim, trimEnd.
  apply Forall_rev, Forall_dropWhile, Forall_rev, Forall_dropWhile, H.
Qed.

Lemma trimEnd_fixed s : trimEnd (trimEnd s) = trimEnd s.
Proof.
  unfold trimEnd. rewrite rev_involutive. f_equal.
  apply dropWhile_id, dropWhile_head.
Qed.

Lemma trimStart_id s : headSpace s = false -> trimStart s = s.
Proof.
  intros H. apply dropWhile_id. destruct s; [exact I | exact H].
Qed.

Lemma headSpace_trimStart s : headSpace (trimStart s) = false.
Proof.
  unfold trimStart. pose proof (dropWhile_head isSpace s) as H.
  destruct (dropWhile isSpace s); [reflexivity | exact H].
Qed.

Lemma headSpace_trimEnd s : headSpace s = false -> headSpace (trimEnd s) = false.
Proof.
  intros H. destruct (trimEnd_split s) as [w [Hs _]].
  destruct (trimEnd s) as [|c t] eqn:E; [reflexivity|].
  rewrite Hs in H. exact H.
Qed.

Lemma trim_fixed s : trim (trim s) = trim s.
Proof.
  unfold trim.
  rewrite (trimStart_id (trimEnd (trimStart s))).
  - apply trimEnd_fixed.
  - apply headSpace_trimEnd, headSpace_trimStart.
Qed.

Lemma trim_all_space s : forallb isSpace s = true -> trim s = [].
Proof.
  intros H. unfold trim, trimStart. now rewrite dropWhile_all.
Qed.

(** *** Runs of white space *)

Lemma collapseFrom_shape s :
  headSpace (collapseFrom true s) = false
  /\ noRun (collapseFrom true s) = true
  /\ noRun (collapseFrom false s) = true.
Proof.
  induction s as [|c t (Hh & Ht & Hf)]; [now simpl|].
  cbn [collapseFrom]. destruct (isSpace c) eqn:Hc.
  - repeat split; try assumption.
    destruct t as [|d u]; [now cbn; rewrite Hc|].
    destruct (isSpace d) eqn:Hd.
    + cbn [noRun]. rewrite Hh, Ht. now rewrite andb_false_r.
    + cbn [noRun headSpace]. rewrite Hc.
      cbn [collapseFrom] in Hf |- *. rewrite Hd in Hf |- *.
      rewrite Hf. cbn [headSpace]. now rewrite Hd.
  - cbn [headSpace noRun]. rewrite Hc, Hf. now repeat split.
Qed.

Lemma noRun_normalizeSpaces s : noRun (normalizeSpaces s) = true.
Proof. apply collapseFrom_shape. Qed.

Lemma normalizeSpaces_id s : noRun s = true -> normalizeSpaces s = s.
Proof.
  unfold normalizeSpaces. induction s as [|c t IH]; [reflexivity|].
  simpl. intros H. apply andb_true_iff in H as [Hc Ht].
  destruct (isSpace c) eqn:Ec.
  - destruct t as [|d u]; [reflexivity|].
    simpl in Hc. destruct (isSpace d); [discriminate|].
    f_equal. now apply IH.
  - f_equal. now apply IH.
Qed.

Lemma Forall_collapseFrom (P : ascii -> Prop) b s :
  P " "%char -> Forall P s -> Forall P (collapseFrom b s).
Proof.
  intros Hsp H. revert b. induction H as [|c t Hc Ht IH]; intros b; [constructor|].
  simpl. destruct (isSpace c).
  - destruct b; [apply IH|].
    destruct t as [|d u]; [now repeat constructor|].
    destruct (isSpace d); constructor; try assumption; apply IH.
  - constructor; [assumption | apply IH].
Qed.

Lemma noRun_app_l a b : noRun (a ++ b) = true -> noRun a = true.
Proof.
  induction a as [|c t IH]; [reflexivity|].
  simpl. intros H. apply andb_true_iff in H as [Hc Ht].
  rewrite (IH Ht), andb_true_r.
  destruct t as [|d u]; simpl in *; [now rewrite andb_false_r | exact Hc].
Qed.

Lemma noRun_dropWhile p s : noRun s = true -> noRun (dropWhile p s) = true.
Proof.
  induction s as [|c t IH]; [reflexivity|].
  intros H. simpl. destruct (p c); [|exact H].
  apply IH. simpl in H. now apply andb_true_iff in H as [_ Ht].
Qed.

Lemma noRun_trim s : noRun s = true -> noRun (trim s) = true.
Proof.
  intros H. unfold trim.
  destruct (trimEnd_split (trimStart s)) as [w [Hs _]].
  apply (noRun_app_l _ w). rewrite <- Hs. now apply noRun_dropWhile.
Qed.

Lemma normalizeText_settled x : Forall settled (normalizeText x).
Proof.
  apply Forall_trim, Forall_collapseFrom; [apply settled_space|].
  apply settled_after_strip.
Qed.

Lemma normalizeText_fixed x : normalizeText (normalizeText x) = normalizeText x.
Proof.
  pose proof (normalizeText_settled x) as Hs.
  unfold normalizeText at 1.
  rewrite (toLowerCase_settled _ Hs), (removePunctuation_settled _ Hs).
  rewrite normalizeSpaces_id.
  - unfold normalizeText. apply trim_fixed.
  - unfold normalizeText. apply noRun_trim, noRun_normalizeSpaces.
Qed.

Lemma only_space_after_strip x :
  forallb (fun c => isPunct c || isSpace c) x = true ->
  forallb isSpace (removePunctuation (toLowerCase x)) = true.
Proof.
  induction x as [|c x IH]; [reflexivity|].
  simpl. intros H. apply andb_true_iff in H as [Hc Hx].
  unfold removePunctuation in *. simpl.
  rewrite isPunct_lowerUnit. destruct (isPunct c) eqn:Hp; simpl; [now apply IH|].
  simpl in Hc. rewrite isSpace_lowerUnit, Hc. now apply IH.
Qed.

Lemma forallb_collapseFrom b s :
  forallb isSpace s = true -> forallb isSpace (collapseFrom b s) = true.
Proof.
  intros H. rewrite forallb_forall in H. apply List.Forall_forall in H.
  apply forallb_forall, List.Forall_forall.
  now apply (Forall_collapseFrom (fun c => isSpace c = true)).
Qed.

End NormalizerFacts.

(** C8. The normaliser is idempotent, and a text made only of units of
    the stripped punctuation class and white space normalises to the
    empty string. *)
Theorem normalizeText_idempotent :
  (forall x, normalizeText (normalizeText x) = normalizeText x)
  /\ (forall x, forallb (fun c => isPunct c || isSpace c) x = true ->
                normalizeText x = []).
Proof.
  split; [apply normalizeText_fixed|].
  intros x H. unfold normalizeText.
  apply trim_all_space, forallb_collapseFrom, only_space_after_strip, H.
Qed.

Lemma normalizeText_idempotent_witness :
  normalizeText (normalizeText $"  Hello,   Magic-Word!  ")
  = normalizeText $"  Hello,   Magic-Word!  "
  /\ normalizeText $" ..., -- (!)  ;" = [].
Proof.
  destruct normalizeText_idempotent as [Hfix Hempty].
  split; [apply Hfix | apply Hempty; vm_compute; reflexivity].
Defined.

(** ** The audio splicer *)

Section WavFacts.

Lemma byteValue_range (b : byte) : 0 <= byteValue b <= 255.
Proof.
  unfold byteValue. pose proof (Byte.to_N_bounded b). lia.
Qed.

Lemma readUInt16LE_range buf off v :
  readUInt16LE buf off = Some v -> 0 <= v <= 65535.
Proof.
  unfold readUInt16LE. intros H.
  destruct (buf !! off) as [a|]; [|discriminate].
  destruct (buf !! (off + 1)%nat) as [b|]; [|discriminate].
  simpl in H. injection H as <-.
  pose proof (byteValue_range a). pose proof (byteValue_range b). lia.
Qed.

Lemma readUInt32LE_range buf off v :
  readUInt32LE buf off = Some v -> 0 <= v <= 4294967295.
Proof.
  unfold readUInt32LE. intros H.
  destruct (buf !! off) as [a|]; [|discriminate].
  destruct (buf !! (off + 3)%nat) as [d|]; [|discriminate].
  destruct (buf !! (off + 1)%nat) as [b|]; [|discriminate].
  destruct (buf !! (off + 2)%nat) as [c|]; [|discriminate].
  simpl in H. injection H as <-.
  pose proof (byteValue_range a). pose proof (byteValue_range b).
  pose proof (byteValue_range c). pose proof (byteValue_range d). lia.
Qed.

Lemma readUInt16LE_inside (buf : Buffer) off :
  (off + 2 <= length buf)%nat -> exists v, readUInt16LE buf off = Some v.
Proof.
  intros H. unfold readUInt16LE.
  destruct (lookup_lt_is_Some_2 buf off) as [a ->]; [lia|].
  destruct (lookup_lt_is_Some_2 buf (off + 1)) as [b ->]; [lia|].
  simpl. eauto.
Qed.

Lemma readUInt32LE_inside (buf : Buffer) off :
  (off + 4 <= length buf)%nat -> exists v, readUInt32LE buf off = Some v.
Proof.
  intros H. unfold readUInt32LE.
  destruct (lookup_lt_is_Some_2 buf off) as [a ->]; [lia|].
  destruct (lookup_lt_is_Some_2 buf (off + 3)) as [d ->]; [lia|].
  destruct (lookup_lt_is_Some_2 buf (off + 1)) as [b ->]; [lia|].
  destruct (lookup_lt_is_Some_2 buf (off + 2)) as [c ->]; [lia|].
  simpl. eauto.
Qed.

Lemma readUInt16LE_outside (buf : Buffer) off :
  (length buf < off + 2)%nat -> readUInt16LE buf off = None.
Proof.
  intros H. unfold readUInt16LE.
  destruct (buf !! off) as [a|] eqn:Ea; [|reflexivity]. simpl.
  rewrite (lookup_ge_None_2 buf (off + 1)); [reflexivity|].
  apply lookup_lt_Some in Ea. lia.
Qed.

(** *** Writes that stay inside a prefix of the buffer *)

Lemma inserts_prefix {A} off (k h p : list A) :
  (off + length k <= length h)%nat ->
  list_inserts off k (h ++ p) = list_inserts off k h ++ p.
Proof.
  revert off. induction k as [|x k IH]; intros off H; simpl in *; [reflexivity|].
  rewrite IH by lia. apply insert_app_l. rewrite length_inserts. lia.
Qed.

Lemma write_prefix text off (h p : Buffer) :
  (off + length text <= length h)%nat ->
  write text off (h ++ p) = write text off h ++ p.
Proof.
  intros H. unfold write. apply inserts_prefix. now rewrite length_map.
Qed.

Lemma length_write text off (h : Buffer) : length (write text off h) = length h.
Proof. unfold write. apply length_inserts. Qed.

Lemma writeUInt32LE_prefix value off (h p : Buffer) :
  (off + 4 <= length h)%nat ->
  outOfRange value 4294967295 = false ->
  writeUInt32LE value off (h ++ p)
  = Some (list_inserts off (le32 (truncNum value)) h ++ p).
Proof.
  intros Hlen Hr. unfold writeUInt32LE. rewrite Hr.
  destruct (lookup_lt_is_Some_2 (h ++ p) off) as [a ->];
    [rewrite length_app; lia|].
  destruct (lookup_lt_is_Some_2 (h ++ p) (off + 3)) as [b ->];
    [rewrite length_app; lia|].
  simpl. f_equal. apply (inserts_prefix off (le32 (truncNum value))). simpl. lia.
Qed.

Lemma writeUInt16LE_prefix value off (h p : Buffer) :
  (off + 2 <= length h)%nat ->
  outOfRange value 65535 = false ->
  writeUInt16LE value off (h ++ p)
  = Some (list_inserts off (le16 (truncNum value)) h ++ p).
Proof.
  intros Hlen Hr. unfold writeUInt16LE. rewrite Hr.
  destruct (lookup_lt_is_Some_2 (h ++ p) off) as [a ->];
    [rewrite length_app; lia|].
  destruct (lookup_lt_is_Some_2 (h ++ p) (off + 1)) as [b ->];
    [rewrite length_app; lia|].
  simpl. f_equal. apply (inserts_prefix off (le16 (truncNum value))). simpl. lia.
Qed.

Lemma copy_after (source h : Buffer) :
  copy source (length h) (h ++ alloc (length source)) = h ++ source.
Proof.
  unfold copy.
  rewrite <- (Nat.add_0_r (length h)), list_inserts_app_r. f_equal.
  rewrite <- (app_nil_r (alloc _)), list_inserts_0_r, app_nil_r; [reflexivity|].
  unfold alloc. now rewrite repeat_length.
Qed.

Lemma outOfRange_ofZ v max : 0 <= v <= max -> outOfRange (ofZ v) max = false.
Proof.
  intros H. unfold outOfRange, ofZ. simpl.
  rewrite Z.gtb_ltb. apply orb_false_iff. split; apply Z.ltb_ge; lia.
Qed.

Lemma outOfRange_divNum v max :
  0 <= v <= 8 * max -> outOfRange (divNum v 8) max = false.
Proof.
  intros H. unfold outOfRange, divNum. simpl.
  rewrite Z.gtb_ltb. apply orb_false_iff. split; apply Z.ltb_ge; lia.
Qed.

(** *** The payload *)

Lemma pcmData_drop (b : Buffer) : pcmData b = drop WAV_HEADER_SIZE b.
Proof.
  unfold pcmData. destruct (length b <=? WAV_HEADER_SIZE)%nat eqn:E; [|reflexivity].
  apply Nat.leb_le in E. symmetry. now apply drop_ge.
Qed.

Lemma concat_nonempty (l : list Buffer) :
  concat (List.filter (fun b => (0 <? length b)%nat) l) = concat l.
Proof.
  induction l as [|b l IH]; [reflexivity|].
  simpl. destruct b as [|x b]; simpl; [exact IH | now rewrite IH].
Qed.

Lemma combinedPCMOf_concat (wavBuffers : list Buffer) :
  combinedPCMOf wavBuffers = concat (map (drop WAV_HEADER_SIZE) wavBuffers).
Proof.
  unfold combinedPCMOf. rewrite concat_nonempty. f_equal.
  apply map_ext. intros b. apply pcmData_drop.
Qed.

Lemma combinedPCMOf_length (wavBuffers : list Buffer) :
  length (combinedPCMOf wavBuffers)
  = list_sum (map (fun b => (length b - WAV_HEADER_SIZE)%nat) wavBuffers).
Proof.
  rewrite combinedPCMOf_concat.
  induction wavBuffers as [|b l IH]; [reflexivity|].
  simpl concat. rewrite length_app, IH, length_drop. reflexivity.
Qed.

(** *** Two or more fragments: header, then payload *)

Lemma alloc_app a b : alloc (a + b) = alloc a ++ alloc b.
Proof. apply repeat_app. Qed.

Lemma length_alloc n : length (alloc n) = n.
Proof. apply repeat_length. Qed.

(** The length of a header under construction. *)
Ltac inside_header :=
  repeat first [ rewrite length_inserts | rewrite length_write ];
  apply length_alloc.

Lemma combineWavBuffers_spliced (firstBuffer second : Buffer) (rest : list Buffer)
    (numChannels sampleRate bitsPerSample : Z) :
  readUInt16LE firstBuffer 22 = Some numChannels ->
  readUInt32LE firstBuffer 24 = Some sampleRate ->
  readUInt16LE firstBuffer 34 = Some bitsPerSample ->
  let pcm := combinedPCMOf (firstBuffer :: second :: rest) in
  36 + Z.of_nat (length pcm) <= 4294967295 ->
  sampleRate * numChannels * bitsPerSample <= 8 * 4294967295 ->
  numChannels * bitsPerSample <= 8 * 65535 ->
  combineWavBuffers (firstBuffer :: second :: rest)
  = Some (canonicalHeader numChannels sampleRate bitsPerSample
            (Z.of_nat (length pcm)) ++ pcm).
Proof.
  intros Hc Hr Hb pcm Hlen Hrate Halign.
  assert (Hsize : forall (h : Buffer) n, (n <= 44)%nat -> length h = 44%nat ->
                    (n <= length h)%nat) by (intros; lia).
  pose proof (readUInt16LE_range _ _ _ Hc).
  pose proof (readUInt32LE_range _ _ _ Hr).
  pose proof (readUInt16LE_range _ _ _ Hb).
  unfold combineWavBuffers. fold pcm.
  rewrite alloc_app, Hc, Hr, Hb. cbn [mbind option_bind].
  repeat first
    [ rewrite write_prefix
        by (apply Hsize; [simpl; lia | inside_header])
    | rewrite writeUInt32LE_prefix
        by first [ apply Hsize; [simpl; lia | inside_header]
                 | apply outOfRange_ofZ; lia | apply outOfRange_divNum; nia ]
    | rewrite writeUInt16LE_prefix
        by first [ apply Hsize; [simpl; lia | inside_header]
                 | apply outOfRange_ofZ; lia | apply outOfRange_divNum; nia ]
    | progress cbn [mbind option_bind] ].
  f_equal.
  match goal with
  | |- copy pcm WAV_HEADER_SIZE (?h ++ _) = _ =>
      replace WAV_HEADER_SIZE with (length h) at 1
        by inside_header;
      rewrite copy_after
  end.
  f_equal. unfold truncNum, ofZ, divNum. cbn [numerator denominator].
  rewrite !Z.div_1_r. reflexivity.
Qed.

End WavFacts.

Lemma readUInt32LE_outside (buf : Buffer) off :
  (length buf < off + 4)%nat -> readUInt32LE buf off = None.
Proof.
  intros H. unfold readUInt32LE.
  destruct (buf !! off) as [a|] eqn:Ea; [|reflexivity]. simpl.
  rewrite (lookup_ge_None_2 buf (off + 3)); [reflexivity | lia].
Qed.

(** With fewer than 36 bytes in the first of several fragments, one of
    the three header reads leaves the buffer and the call throws. *)
Lemma combineWavBuffers_short_first (firstBuffer second : Buffer)
    (rest : list Buffer) :
  (length firstBuffer < 36)%nat ->
  combineWavBuffers (firstBuffer :: second :: rest) = None.
Proof.
  intros H. unfold combineWavBuffers.
  destruct (readUInt16LE firstBuffer 22) as [numChannels|]; [|reflexivity].
  destruct (readUInt32LE firstBuffer 24) as [sampleRate|]; [|reflexivity].
  now rewrite (readUInt16LE_outside firstBuffer 34) by lia.
Qed.

(** C3. Two fragments arrive, the first cut short after ten bytes, the
    second whole with payload [03 04].  The claim gives the payload
    [03 04]; the splicer reads the header fields of the first fragment
    at offset 22 and throws, although the same fragment is skipped
    without error when its payload is taken.  Zero fragments and a single
    fragment behave as claimed. *)
Theorem combineWavBuffers_truncated_first_throws :
  combineWavBuffers [truncatedFragment; wavFragment [x03; x04]] = None
  /\ pcmData truncatedFragment = []
  /\ combinedPCMOf [truncatedFragment; wavFragment [x03; x04]] = [x03; x04]
  /\ combineWavBuffers [] = Some []
  /\ (forall only, combineWavBuffers [only] = Some only).
Proof.
  split; [apply combineWavBuffers_short_first; vm_compute; lia|].
  repeat split.
Qed.

Lemma canonicalHeader_length numChannels sampleRate bitsPerSample pcmLength :
  length (canonicalHeader numChannels sampleRate bitsPerSample pcmLength) = 44%nat.
Proof. reflexivity. Qed.

(** No fragment: the output is the empty buffer, which has no header. *)
Lemma combineWavBuffers_no_header_for_no_fragments :
  ~ (exists out, combineWavBuffers [] = Some out /\ hasCanonicalHeader out).
Proof.
  intros (out & Hout & numChannels & sampleRate & bitsPerSample & Hh).
  injection Hout as <-. discriminate Hh.
Qed.

(** Where the header is as promised: for two or more fragments whose
    first fragment has at least 36 bytes, the three header fields are
    read inside that fragment; when the values to write fit their
    fields, the output is the complete 44-byte canonical header built
    from those fields, followed by the payload, also when the payload is
    empty. *)
Theorem combineWavBuffers_header (firstBuffer second : Buffer) (rest : list Buffer) :
  (36 <= length firstBuffer)%nat ->
  exists numChannels sampleRate bitsPerSample,
    readUInt16LE firstBuffer 22 = Some numChannels
    /\ readUInt32LE firstBuffer 24 = Some sampleRate
    /\ readUInt16LE firstBuffer 34 = Some bitsPerSample
    /\ (let fragments := firstBuffer :: second :: rest in
        let payload := concat (map (drop 44) fragments) in
        36 + Z.of_nat (length payload) <= 4294967295 ->
        sampleRate * numChannels * bitsPerSample <= 8 * 4294967295 ->
        numChannels * bitsPerSample <= 8 * 65535 ->
        exists out,
          combineWavBuffers fragments = Some out
          /\ out = canonicalHeader numChannels sampleRate bitsPerSample
                     (Z.of_nat (length payload)) ++ payload
          /\ length out = (44 + length payload)%nat
          /\ hasCanonicalHeader out)
    /\ combineWavBuffers [] = Some []
    /\ combineWavBuffers [firstBuffer] = Some firstBuffer.
Proof.
  intros Hlen.
  destruct (readUInt16LE_inside firstBuffer 22) as [numChannels Hc]; [lia|].
  destruct (readUInt32LE_inside firstBuffer 24) as [sampleRate Hr]; [lia|].
  destruct (readUInt16LE_inside firstBuffer 34) as [bitsPerSample Hb]; [lia|].
  exists numChannels, sampleRate, bitsPerSample.
  repeat split; try assumption.
  intros fragments payload Hsize Hrate Halign.
  assert (Hpcm : combinedPCMOf fragments = payload)
    by apply combinedPCMOf_concat.
  pose proof (combineWavBuffers_spliced firstBuffer second rest _ _ _ Hc Hr Hb) as H.
  cbv zeta in H. fold fragments in H. rewrite Hpcm in H.
  specialize (H Hsize Hrate Halign).
  exists (canonicalHeader numChannels sampleRate bitsPerSample
            (Z.of_nat (length payload)) ++ payload).
  split; [exact H|]. split; [reflexivity|].
  assert (Hl : length (canonicalHeader numChannels sampleRate bitsPerSample
                         (Z.of_nat (length payload)) ++ payload)
               = (44 + length payload)%nat)
    by (rewrite length_app, canonicalHeader_length; reflexivity).
  split; [exact Hl|].
  exists numChannels, sampleRate, bitsPerSample.
  rewrite Hl. unfold WAV_HEADER_SIZE.
  rewrite take_app_length' by reflexivity.
  f_equal. lia.
Qed.

Lemma combineWavBuffers_header_witness :
  exists out,
    combineWavBuffers [wavFragment []; truncatedFragment] = Some out
    /\ length out = 44%nat
    /\ hasCanonicalHeader out.
Proof.
  destruct (combineWavBuffers_header (wavFragment []) truncatedFragment [])
    as (numChannels & sampleRate & bitsPerSample & Hc & Hr & Hb & H & _);
    [vm_compute; lia|].
  vm_compute in Hc. vm_compute in Hr. vm_compute in Hb.
  injection Hc as <-. injection Hr as <-. injection Hb as <-.
  destruct H as (out & Hout & _ & Hl & Hh); [vm_compute; discriminate ..|].
  exists out. split; [exact Hout|]. split; [exact Hl | exact Hh].
Defined.

(** C4. Two fragments arrive, the first cut short after thirty bytes,
    the second a bare header, so the payload to write is empty.  The
    claim gives a buffer with a complete header and no read outside the
    first fragment.  The channel count and the sample rate are read
    inside the thirty bytes; the read of the bits per sample at offset
    34 is made without a look at the length, leaves the fragment and
    throws: there is no output, and so no header. *)
Theorem combineWavBuffers_reads_outside_first_fragment :
  let firstBuffer := take 30 (wavFragment [x01; x02]) in
  let fragments := [firstBuffer; wavFragment []] in
  length firstBuffer = 30%nat
  /\ readUInt16LE firstBuffer 22 = Some 1
  /\ readUInt32LE firstBuffer 24 = Some 16000
  /\ readUInt16LE firstBuffer 34 = None
  /\ combinedPCMOf fragments = []
  /\ combineWavBuffers fragments = None
  /\ ~ (exists out, combineWavBuffers fragments = Some out
                    /\ hasCanonicalHeader out).
Proof.
  cbv zeta.
  assert (Hthrows : combineWavBuffers
                      [take 30 (wavFragment [x01; x02]); wavFragment []] = None)
    by (apply combineWavBuffers_short_first; vm_compute; lia).
  split; [reflexivity|].
  split; [vm_compute; reflexivity|].
  split; [vm_compute; reflexivity|].
  split; [apply readUInt16LE_outside; vm_compute; lia|].
  split; [vm_compute; reflexivity|].
  split; [exact Hthrows|].
  intros (out & Hout & _). rewrite Hthrows in Hout. discriminate Hout.
Qed.

(** ** The diarization pipeline *)

Section PipelineFacts.

Lemma orString_truthy a b : truthy b = true -> truthy (orString a b) = true.
Proof. unfold orString. destruct (truthy a) eqn:E; intros; assumption. Qed.

Lemma truthy_nonempty s : truthy s = true <-> s <> [].
Proof. destruct s; simpl; split; intros; congruence. Qed.

Lemma fallbackTopic_truthy summary : truthy (fallbackTopic summary) = true.
Proof. unfold fallbackTopic. now apply orString_truthy. Qed.

Lemma finalTopic_truthy extractedTopic summary :
  truthy (finalTopic extractedTopic summary) = true.
Proof.
  unfold finalTopic. destruct extractedTopic as [t|]; [|apply fallbackTopic_truthy].
  match goal with
  | |- truthy (if ?c then _ else _) = _ => destruct c eqn:E
  end; [apply fallbackTopic_truthy|].
  destruct (truthy t); [reflexivity | discriminate E].
Qed.

Lemma finalTopic_rejected computed summary :
  rejectedTopic computed -> finalTopic computed summary = fallbackTopic summary.
Proof.
  unfold finalTopic.
  intros [-> | [-> | [-> | [(t & -> & Ht) | ->]]]]; try reflexivity.
  rewrite Ht. change (len [] =? 0) with true. now rewrite orb_true_r.
Qed.

(** What lines 498-538 deliver does not depend on the language branch. *)
Lemma summarizeAndDeliver_eq svc st sessionId language filteredText :
  summarizeAndDeliver svc st sessionId language filteredText
  = (setTopic st sessionId (fallbackTopic filteredText),
     sendTo st sessionId spectator
       (summary_msg filteredText (fallbackTopic filteredText))
     ++ sendTo st sessionId magician
          (summarize_complete filteredText (fallbackTopic filteredText))).
Proof.
  unfold summarizeAndDeliver.
  destruct (languageBranch svc filteredText language) as [summary topic].
  reflexivity.
Qed.

Lemma processDiarization_ignores_services svc svc' transcription st
    sessionId language startKeyword endKeyword :
  processDiarization svc transcription st sessionId language startKeyword endKeyword
  = processDiarization svc' transcription st sessionId language startKeyword endKeyword.
Proof.
  unfold processDiarization.
  destruct transcription as [| |channels]; try reflexivity.
  destruct (selectTranscript channels) as [t|]; [|reflexivity].
  now rewrite !summarizeAndDeliver_eq.
Qed.

Lemma in_sendTo st sessionId r m e :
  In e (sendTo st sessionId r m) -> e = Send sessionId r m.
Proof.
  unfold sendTo. destruct (isOpen st sessionId r); simpl; [|tauto].
  intros [<- | []]. reflexivity.
Qed.

(** Every result message of a run carries the filtered text and the
    fallback topic computed from it. *)
Lemma delivered_result svc transcription st sessionId language
    startKeyword endKeyword sid r summary topic :
  let effects :=
    snd (processDiarization svc transcription st sessionId language
           startKeyword endKeyword) in
  In (Send sid r (summary_msg summary topic)) effects
  \/ In (Send sid r (summarize_complete summary topic)) effects ->
  topic = fallbackTopic summary.
Proof.
  unfold processDiarization.
  destruct transcription as [| |channels]; simpl.
  1, 2: intros [H | H]; apply in_sendTo in H; discriminate.
  destruct (selectTranscript channels) as [t|]; simpl.
  2: intros [H | H]; apply in_sendTo in H; discriminate.
  destruct (negb _ || _).
  - simpl. intros [H | H]; apply in_app_or in H as [H | H];
      apply in_sendTo in H; discriminate.
  - rewrite summarizeAndDeliver_eq. simpl.
    intros [H | H]; apply in_app_or in H as [H | H];
      try (apply in_sendTo in H; discriminate);
      apply in_app_or in H as [H | H]; apply in_sendTo in H;
      try discriminate; now injection H as _ _ -> ->.
Qed.

End PipelineFacts.

(** C1. A window in English: the transcript is "magic start hello big
    world magic stop", the Summarization Service answers "A greeting to
    the world." and the AI Topic Service answers "Greeting".  The claim
    gives these two as the delivered summary and topic.  The language
    branch does compute them, and lines 506-507 then overwrite them: both
    result messages carry the filtered text "hello big world" as the
    summary and its first two words as the topic. *)
Theorem english_summary_and_topic_overwritten :
  languageBranch sampleServices $"hello big world" $"en"
  = (Some $"A greeting to the world.", Some $"Greeting")
  /\ snd (processDiarization sampleServices sampleTranscription
            (bothConnected $"s1") $"s1" $"en"
            (Some $"magic start") (Some $"magic stop"))
     = [ Send $"s1" magician
           (magic_transcript $"magic start hello big world magic stop");
         Send $"s1" spectator (summary_msg $"hello big world" $"hello big");
         Send $"s1" magician (summarize_complete $"hello big world" $"hello big") ].
Proof. split; vm_compute; reflexivity. Qed.

(** C2. In every run that delivers a result, the topic of the
    [summary] and [summarize_complete] messages is a non-empty string.
    It is the value the post-validation of lines 498-503 gives, and that
    validation replaces an absent, empty, blank, "null" or "unknown
    topic" topic by the first two words longer than two units of the
    summary delivered with it, joined by a space, or by "speech topic"
    when the summary has no such word. *)
Theorem delivered_topic_never_empty svc transcription st sessionId language
    startKeyword endKeyword sid r summary topic :
  let effects :=
    snd (processDiarization svc transcription st sessionId language
           startKeyword endKeyword) in
  In (Send sid r (summary_msg summary topic)) effects
  \/ In (Send sid r (summarize_complete summary topic)) effects ->
  topic <> []
  /\ topic = finalTopic None summary
  /\ (forall computed,
        finalTopic computed summary <> []
        /\ (rejectedTopic computed ->
            finalTopic computed summary
            = orString
                (join $" " (take 2 (List.filter (fun w => len w >? 2)
                                      (splitWs summary))))
                $"speech topic")).
Proof.
  intros effects H.
  apply delivered_result in H. subst topic.
  split; [apply truthy_nonempty, fallbackTopic_truthy|].
  split; [reflexivity|].
  intros computed. split; [apply truthy_nonempty, finalTopic_truthy|].
  apply finalTopic_rejected.
Qed.

Lemma delivered_topic_never_empty_witness :
  $"hello big" <> []
  /\ $"hello big" = finalTopic None $"hello big world".
Proof.
  destruct (delivered_topic_never_empty sampleServices sampleTranscription
              (bothConnected $"s1") $"s1" $"en"
              (Some $"magic start") (Some $"magic stop")
              $"s1" spectator $"hello big world" $"hello big")
    as (Hne & Hfinal & _).
  - left. vm_compute. right. left. reflexivity.
  - split; [exact Hne | exact Hfinal].
Defined.

(** ** Fragment submission and manual control *)

Section HandlerFacts.

Lemma triple_eta {A B C} (x : A * B * C) : x = (fst (fst x), snd (fst x), snd x).
Proof. now destruct x as [[a b] c]. Qed.

Lemma chunksOf_setAudio st sessionId a :
  chunksOf (setAudio st sessionId a) sessionId = chunks a.
Proof. unfold chunksOf, setAudio. simpl. now rewrite lookup_insert_eq. Qed.

Lemma recordingOf_setAudio st sessionId a :
  recordingOf (setAudio st sessionId a) sessionId = isRecording a.
Proof. unfold recordingOf, setAudio. simpl. now rewrite lookup_insert_eq. Qed.

Lemma setAudio_same st sessionId a :
  audioChunks st !! sessionId = Some a -> setAudio st sessionId a = st.
Proof.
  intros H. destruct st as [audio ss topics]. unfold setAudio. simpl in *.
  f_equal. now apply insert_id.
Qed.

(** A manual end with buffered fragments the splicer accepts: the
    recording stops, one pipeline run gets the spliced audio and the
    session's language and keywords, and the sequence is cleared. *)
Lemma manualEnd_with_fragments st sessionId language a combinedAudio :
  audioChunks st !! sessionId = Some a ->
  chunks a <> [] ->
  combineWavBuffers (chunks a) = Some combinedAudio ->
  let result := manualEnd sessionId language st in
  recordingOf (fst result) sessionId = false
  /\ chunksOf (fst result) sessionId = []
  /\ snd result
     = [Diarize combinedAudio sessionId
          (orString (Server.language a) (default $"en" language))
          (startKeyword a) (endKeyword a)].
Proof.
  intros Ha Hne Hcombine. unfold manualEnd. rewrite Ha.
  destruct (chunks a) as [|c cs] eqn:Ec; [congruence|].
  simpl. rewrite Ec, Hcombine. simpl.
  rewrite recordingOf_setAudio, chunksOf_setAudio. now repeat split.
Qed.

(** A manual end for a session that never recorded. *)
Lemma manualEnd_never_started st sessionId language :
  recordingOf st sessionId = false ->
  chunksOf st sessionId = [] ->
  manualEnd sessionId language st
  = (st, sendTo st sessionId magician
           (no_recording_error $"magic_not_started"
              $"Magic was never started. Please start magic before stopping.")).
Proof.
  unfold recordingOf, chunksOf, manualEnd.
  destruct (audioChunks st !! sessionId) as [a|]; [|reflexivity].
  intros -> ->. reflexivity.
Qed.

End HandlerFacts.

(** C5. A manual start followed at once by a manual end: the claim has
    the manual end force the session to Idle.  The handler reports
    [no_chunks_captured] and returns the state as it found it, so the
    session is still recording; [isRecording] is reset only in the
    branch with buffered fragments (line 892), while the end-trigger path
    resets it before looking at the fragments (line 703). *)
Theorem manualEnd_without_fragments_keeps_recording
    st sessionId startKeyword endKeyword language language' :
  let started := fst (manualStart sessionId startKeyword endKeyword language st) in
  recordingOf started sessionId = true
  /\ chunksOf started sessionId = []
  /\ manualEnd sessionId language' started
     = (started,
        sendTo started sessionId magician
          (no_recording_error $"no_chunks_captured"
             $"No audio captured during magic. Recording was too short or silent."))
  /\ recordingOf (fst (manualEnd sessionId language' started)) sessionId = true.
Proof.
  unfold manualStart, manualEnd. simpl.
  rewrite recordingOf_setAudio, chunksOf_setAudio. simpl.
  unfold setAudio at 1 3. simpl. rewrite !lookup_insert_eq. simpl.
  rewrite recordingOf_setAudio. now repeat split.
Qed.



(** C10. A fragment sent with [isMagicActive] "false" to a recording
    session, with the end phrase and without the start phrase in its
    transcript: the fragment sequence and the recording flag stay as
    they were, no pipeline run starts, nothing but the live transcript
    is sent, and the response has [keywordDetected] false.  The entry of
    the session changes at most in the keywords and the language, which
    every submission refreshes (lines 620-625); when the request brings
    nothing new there, the whole state is unchanged. *)
Theorem end_phrase_without_active_flag_dropped
    req transcript st audioBuffer a st' effects response :
  req_file req = Some audioBuffer ->
  audioChunks st !! req_sessionId req = Some a ->
  isRecording a = true ->
  hasKeyword transcript (req_endKeyword req) = true ->
  req_isMagicActive req = Some $"false" ->
  hasKeyword transcript (req_startKeyword req) = false ->
  processAudioChunk req (Some transcript) st = (st', effects, response) ->
  chunksOf st' (req_sessionId req) = chunks a
  /\ recordingOf st' (req_sessionId req) = true
  /\ effects = sendTo st (req_sessionId req) magician (transcript_msg transcript)
  /\ (forall audio sid language startKeyword endKeyword,
        ~ In (Diarize audio sid language startKeyword endKeyword) effects)
  /\ response = json transcript false None
  /\ st' = setAudio st (req_sessionId req) (refreshed st req)
  /\ (refreshed st req = a -> st' = st).
Proof.
  intros Hfile Ha Hrec Hend Hactive Hstart. unfold processAudioChunk.
  rewrite Hfile, Hstart, Hend, Hactive.
  rewrite (bool_decide_eq_false_2 (Some $"false" = Some $"true")) by discriminate.
  cbn [andb negb]. rewrite andb_false_r. cbn [andb].
  intros [= <- <- <-].
  assert (Hchunks : chunks (refreshed st req) = chunks a)
    by (unfold refreshed; now rewrite Ha).
  assert (Hflag : isRecording (refreshed st req) = true)
    by (unfold refreshed; now rewrite Ha).
  rewrite chunksOf_setAudio, recordingOf_setAudio, app_nil_r.
  repeat split; try assumption.
  - intros audio sid language startKeyword endKeyword H.
    apply in_sendTo in H. discriminate.
  - intros ->. now apply setAudio_same.
Qed.

Lemma end_phrase_without_active_flag_dropped_witness :
  let result := processAudioChunk (sampleRequest "false" (wavFragment [x02]))
                  (Some $"and now, magic stop.") recordingState in
  chunksOf (fst (fst result)) $"s1" = [wavFragment [x01]]
  /\ recordingOf (fst (fst result)) $"s1" = true
  /\ snd result = json $"and now, magic stop." false None
  /\ fst (fst result) = recordingState.
Proof.
  intros result.
  destruct (end_phrase_without_active_flag_dropped
              (sampleRequest "false" (wavFragment [x02])) $"and now, magic stop."
              recordingState (wavFragment [x02])
              (mkAudioSession [wavFragment [x01]] true
                 (Some $"magic start") (Some $"magic stop") $"en")
              (fst (fst result)) (snd (fst result)) (snd result))
    as (Hchunks & Hrec & _ & _ & Hresp & _ & Hsame);
    [reflexivity | vm_compute; reflexivity | reflexivity | vm_compute; reflexivity
    | reflexivity | vm_compute; reflexivity | apply triple_eta |].
  split; [exact Hchunks|]. split; [exact Hrec|]. split; [exact Hresp|].
  apply Hsame. vm_compute. reflexivity.
Defined.

(** ** Keyword extraction *)

Section TriggerFacts.

(** The length of a keyword is read only after its normal form was
    found: an absent keyword gives index [-1] and the branches that read
    the length are not taken. *)
Lemma absent_start_keyword fullText endKeyword :
  extractTextBetweenKeywords fullText None endKeyword
  = extractTextBetweenKeywords fullText (Some []) endKeyword.
Proof. reflexivity. Qed.

(** Without punctuation the offsets in the normalised copy are those of
    the original (the sample of spec section 8). *)
Lemma extractTextBetweenKeywords_plain :
  extractTextBetweenKeywords $"Hello magic word apple magic stop"
    (Some $"magic word") (Some $"magic stop") = $"apple".
Proof. vm_compute. reflexivity. Qed.

End TriggerFacts.

(** C7. The text "Hello... magic word apple magic stop" with the phrases
    "magic word" and "magic stop": both are found in the normalised copy,
    at 6 and at 23, in valid order and not adjacent.  The text strictly
    between the two occurrences in the original is " apple ", so the
    claim gives "apple".  The function cuts the original at the offsets
    found in the normalised copy, three units too early after the dots
    were stripped, and returns "ord app". *)
Theorem extractTextBetweenKeywords_cuts_at_normalised_offsets :
  let fullText := $"Hello... magic word apple magic stop" in
  fullText = $"Hello... " ++ $"magic word" ++ $" apple " ++ $"magic stop"
  /\ indexOf (normalizeText fullText) (normalizeText $"magic word") = 6
  /\ lastIndexOf (normalizeText fullText) (normalizeText $"magic stop") = 23
  /\ textBetween $" apple " = $"apple"
  /\ extractTextBetweenKeywords fullText (Some $"magic word") (Some $"magic stop")
     = $"ord app".
Proof. repeat split; vm_compute; reflexivity. Qed.

(** ** The weighted frequency strategy *)

Section TopicFacts.

(** The head of the sorted entries has the greatest count, and sorting
    keeps the entries. *)
Lemma in_insertByCount e x l :
  In x (insertByCount e l) <-> x = e \/ In x l.
Proof.
  induction l as [|y l IH]; simpl; [intuition|].
  destruct (snd y >? snd e); simpl; [rewrite IH|]; intuition.
Qed.

Lemma in_sortByCount x l : In x (sortByCount l) <-> In x l.
Proof.
  induction l as [|e l IH]; simpl; [reflexivity|].
  rewrite in_insertByCount, IH. intuition.
Qed.

Lemma headIsGreatest_insert e l :
  headIsGreatest l -> headIsGreatest (insertByCount e l).
Proof.
  destruct l as [|x l]; simpl.
  - intros _ y [<- | []]. lia.
  - intros H. destruct (snd x >? snd e) eqn:E; simpl.
    + intros y [<- | Hy]; [lia|].
      apply in_insertByCount in Hy as [-> | Hy]; [lia|].
      apply H. now right.
    + intros y [<- | Hy]; [lia|].
      specialize (H y Hy). lia.
Qed.

Lemma headIsGreatest_sort l : headIsGreatest (sortByCount l).
Proof.
  induction l as [|e l IH]; simpl; [exact I|].
  now apply headIsGreatest_insert.
Qed.

(** What the strategy returns, for every text: a word whose count plus
    bonuses is at least 2 and is the greatest in the table, or nothing
    when no entry reaches 2. *)
Lemma extractTopicByFrequency_by_score text :
  match extractTopicByFrequency text with
  | Some w =>
      exists count,
        In (w, count) (entries (scores text))
        /\ 2 <= count
        /\ forall w' count', In (w', count') (entries (scores text)) ->
                             2 <= count' -> count' <= count
  | None => forall w count, In (w, count) (entries (scores text)) -> count < 2
  end.
Proof.
  unfold extractTopicByFrequency.
  set (frequent := List.filter (fun e => snd e >=? 2) (entries (scores text))).
  pose proof (headIsGreatest_sort frequent) as Hmax.
  pose proof (fun x => in_sortByCount x frequent) as Hin.
  destruct (sortByCount frequent) as [|[w count] rest].
  - intros w count Hw.
    destruct (Z.ltb_spec count 2) as [|Hge]; [assumption|].
    exfalso. apply (Hin (w, count)). apply filter_In. split; [exact Hw|].
    simpl. now apply Z.geb_le.
  - exists count.
    assert (Hw : In (w, count) frequent) by (apply Hin; now left).
    apply filter_In in Hw as [Hw Hc]. simpl in Hc. apply Z.geb_le in Hc.
    repeat split; try assumption.
    intros w' count' Hw' Hc'.
    apply (Hmax (w', count')). apply Hin, filter_In. split; [exact Hw'|].
    simpl. now apply Z.geb_le.
Qed.

Lemma extractTopicByFrequency_repeated :
  extractTopicByFrequency $"cats and dogs, cats and birds" = Some $"cats".
Proof. vm_compute. reflexivity. Qed.

Lemma extractTopicByFrequency_none :
  extractTopicByFrequency $"hello world" = None.
Proof. vm_compute. reflexivity. Qed.

End TopicFacts.

(** C9. The text "I like pizza": its tokens are "like" and "pizza", one
    occurrence each, so no word occurs twice and the claim gives none.
    The cue phrase "I like X" adds 6 to the count of "pizza" in the same
    table, the test [count >= 2] under the comment "Find words that
    appear multiple times" reads that sum, and the function returns
    "pizza". *)
Theorem extractTopicByFrequency_returns_word_seen_once :
  let text := $"I like pizza" in
  tokens text = [$"like"; $"pizza"]
  /\ countWords (tokens text) = [($"like", 1); ($"pizza", 1)]
  /\ occurrences text $"pizza" = 1
  /\ (forall w, occurrences text w < 2)
  /\ scores text = [($"like", 1); ($"pizza", 7)]
  /\ extractTopicByFrequency text = Some $"pizza".
Proof.
  repeat split; try (vm_compute; reflexivity).
  intros w. unfold occurrences.
  change (countWords (tokens $"I like pizza")) with [($"like", 1); ($"pizza", 1)].
  simpl. repeat destruct (eqs _ w); lia.
Qed.

(** * Further properties *)

(** ** Normal forms and keyword detection *)

Section NormalFormFacts.

Lemma settled_not_capital c : settled c -> isUpperAZ c = false.
Proof.
  intros [H _]. revert H.
  destruct c as [[] [] [] [] [] [] [] []]; vm_compute; intros H;
    first [reflexivity | discriminate H].
Qed.

Lemma headSpace_rev_trimEnd s : headSpace (rev (trimEnd s)) = false.
Proof.
  unfold trimEnd. rewrite rev_involutive.
  pose proof (dropWhile_head isSpace (rev s)) as H.
  destruct (dropWhile isSpace (rev s)); [reflexivity | exact H].
Qed.

Lemma headSpace_trim s : headSpace (trim s) = false.
Proof. apply headSpace_trimEnd, headSpace_trimStart. Qed.

Lemma headSpace_rev_trim s : headSpace (rev (trim s)) = false.
Proof. apply headSpace_rev_trimEnd. Qed.

Lemma trim_empty_length s : len (trim s) = 0 -> trim s = [].
Proof. unfold len. destruct (trim s); [reflexivity | simpl; lia]. Qed.

End NormalFormFacts.

(** X1. The output of the normaliser has no capital A-Z and no unit of
    the stripped punctuation class, no two adjacent white-space units,
    and no white space at either end. *)
Theorem normalizeText_normal_form x :
  Forall (fun c => isUpperAZ c = false /\ isPunct c = false) (normalizeText x)
  /\ noRun (normalizeText x) = true
  /\ headSpace (normalizeText x) = false
  /\ headSpace (rev (normalizeText x)) = false.
Proof.
  split.
  - eapply List.Forall_impl; [|apply normalizeText_settled].
    intros c Hc. split; [now apply settled_not_capital | apply Hc].
  - split; [apply noRun_trim, noRun_normalizeSpaces|].
    split; [apply headSpace_trim | apply headSpace_rev_trim].
Qed.

Section SearchFacts.

Lemma startsWith_prefix p s : startsWith p s = true <-> exists post, s = p ++ post.
Proof.
  revert s. induction p as [|a p IH]; intros s; simpl.
  - split; [intros _; now exists s | reflexivity].
  - destruct s as [|b s]; [split; [discriminate | intros [post H]; discriminate H]|].
    rewrite andb_true_iff, bool_decide_eq_true, IH. split.
    + intros [-> [post ->]]. now exists post.
    + intros [post H]. injection H as -> ->. split; [reflexivity | now exists post].
Qed.

Lemma indexOfFrom_spec needle hay i :
  (indexOfFrom needle hay i = -1
   /\ ~ exists pre post, hay = pre ++ needle ++ post)
  \/ (exists pre post,
        hay = pre ++ needle ++ post
        /\ indexOfFrom needle hay i = i + len pre
        /\ forall pre' post', hay = pre' ++ needle ++ post' ->
                              (length pre <= length pre')%nat).
Proof.
  revert i. induction hay as [|c hay IH]; intros i; simpl.
  - destruct (startsWith needle []) eqn:E.
    + right. apply startsWith_prefix in E as [post E].
      exists [], post. repeat split; [exact E | unfold len; simpl; lia |].
      intros; simpl; lia.
    + left. split; [reflexivity|]. intros (pre & post & H).
      destruct pre; [|discriminate H]. simpl in H.
      assert (startsWith needle [] = true) by (apply startsWith_prefix; now exists post).
      congruence.
  - destruct (startsWith needle (c :: hay)) eqn:E.
    + right. apply startsWith_prefix in E as [post E].
      exists [], post. repeat split; [exact E | unfold len; simpl; lia |].
      intros; simpl; lia.
    + assert (Hhead : forall post, c :: hay <> needle ++ post).
      { intros post H.
        assert (startsWith needle (c :: hay) = true)
          by (apply startsWith_prefix; now exists post).
        congruence. }
      destruct (IH (i + 1)) as [[H1 H2] | (pre & post & Hp & Hi & Hfirst)].
      * left. split; [exact H1|]. intros (pre & post & Hp).
        destruct pre as [|d pre]; [now apply (Hhead post)|].
        apply H2. injection Hp as _ ->. now exists pre, post.
      * right. exists (c :: pre), post. repeat split.
        -- simpl. now rewrite Hp.
        -- rewrite Hi. unfold len. simpl length. lia.
        -- intros pre' post' H'. destruct pre' as [|d pre']; [now apply Hhead in H'|].
           injection H' as _ H'. specialize (Hfirst _ _ H'). simpl. lia.
Qed.

Lemma includes_substring hay needle :
  includes hay needle = true <-> exists pre post, hay = pre ++ needle ++ post.
Proof.
  unfold includes, indexOf. rewrite negb_true_iff, Z.eqb_neq.
  destruct (indexOfFrom_spec needle hay 0) as [[H Hn] | (pre & post & Hp & Hi & _)].
  - rewrite H. split; [congruence | intros Hy; now apply Hn in Hy].
  - rewrite Hi. split; [intros _; now exists pre, post | unfold len; lia].
Qed.

Lemma normalizedKeyword_normal k :
  normalizedKeyword k = normalizeText (orEmpty k).
Proof. destruct k as [[|c t]|]; reflexivity. Qed.

End SearchFacts.

(** X2. Trigger detection is containment of normal forms: a phrase is
    detected in a transcript exactly when its normal form is not empty
    and occurs as a substring of the normal form of the transcript, at
    any place, also inside a word.  Detection therefore does not change
    when the transcript and the phrase are replaced by their normal
    forms. *)
Theorem hasKeyword_substring transcript k :
  (hasKeyword transcript k = true
   <-> normalizeText (orEmpty k) <> []
       /\ exists pre post,
            normalizeText transcript = pre ++ normalizeText (orEmpty k) ++ post)
  /\ hasKeyword (normalizeText transcript) (Some (normalizeText (orEmpty k)))
     = hasKeyword transcript k.
Proof.
  assert (Hiff : forall t q,
            hasKeyword t q = true
            <-> normalizeText (orEmpty q) <> []
                /\ exists pre post,
                     normalizeText t = pre ++ normalizeText (orEmpty q) ++ post).
  { intros t q. unfold hasKeyword.
    rewrite normalizedKeyword_normal, andb_true_iff, truthy_nonempty,
      includes_substring. reflexivity. }
  split; [apply Hiff|].
  apply eq_true_iff_eq. rewrite !Hiff. simpl orEmpty.
  now rewrite !normalizeText_fixed.
Qed.

Section ExtractFacts.

Lemma stripLeadingLetter_ends s :
  headSpace s = false -> headSpace (rev s) = false ->
  headSpace (stripLeadingLetter s) = false
  /\ headSpace (rev (stripLeadingLetter s)) = false.
Proof.
  intros Hh Hr. unfold stripLeadingLetter.
  destruct s as [|c [|d t]]; try (split; assumption).
  destruct (isAlpha c && isSpace d); [|split; assumption].
  pose proof (dropWhile_head isSpace t) as Hd.
  destruct (dropWhile_split isSpace t) as (w & Ht & _).
  destruct (dropWhile isSpace t) as [|e u] eqn:E; [now split|].
  split; [exact Hd|].
  rewrite Ht in Hr. change (c :: d :: w ++ e :: u) with ([c; d] ++ w ++ e :: u) in Hr.
  rewrite !rev_app_distr in Hr.
  destruct (rev (e :: u)) as [|z v] eqn:Ev; [|exact Hr].
  apply (f_equal (@length _)) in Ev. rewrite length_rev in Ev. discriminate Ev.
Qed.

End ExtractFacts.

(** X3. The extracted text never starts or ends with white space,
    whatever the transcript and the phrases. *)
Theorem extractTextBetweenKeywords_trimmed fullText startKeyword endKeyword :
  headSpace (extractTextBetweenKeywords fullText startKeyword endKeyword) = false
  /\ headSpace (rev (extractTextBetweenKeywords fullText startKeyword endKeyword))
     = false.
Proof.
  unfold extractTextBetweenKeywords.
  repeat match goal with
         | |- context [if ?c then _ else _] => destruct c
         end;
    first [ now split
          | apply stripLeadingLetter_ends;
              [apply headSpace_trim | apply headSpace_rev_trim]
          | split; [apply headSpace_trim | apply headSpace_rev_trim] ].
Qed.

(** X4. When neither phrase has a non-empty normal form (absent, empty or
    made of stripped punctuation), the function returns the whole text,
    trimmed. *)
Theorem extractTextBetweenKeywords_without_phrases fullText startKeyword endKeyword :
  normalizeText (orEmpty startKeyword) = [] ->
  normalizeText (orEmpty endKeyword) = [] ->
  extractTextBetweenKeywords fullText startKeyword endKeyword = trim fullText.
Proof.
  intros Hs He. unfold extractTextBetweenKeywords. rewrite Hs, He.
  cbn [truthy]. change (-1 =? -1) with true. cbn [negb andb orb].
  destruct (negb (truthy fullText) || (len (trim fullText) =? 0)) eqn:E;
    [|reflexivity].
  apply orb_true_iff in E as [E | E].
  - destruct fullText; [reflexivity | discriminate E].
  - symmetry. apply trim_empty_length. now apply Z.eqb_eq.
Qed.

Lemma extractTextBetweenKeywords_without_phrases_witness :
  extractTextBetweenKeywords $"  Hello, world.  " None (Some $"...")
  = $"Hello, world.".
Proof.
  rewrite (extractTextBetweenKeywords_without_phrases $"  Hello, world.  "
             None (Some $"..."));
    vm_compute; reflexivity.
Defined.

Section SubstringFacts.

Lemma substring_middle (a m b : jsstring) :
  substring (a ++ m ++ b) (len a) (len a + len m) = m.
Proof.
  unfold substring, clampIndex, len. rewrite !length_app.
  replace (Z.to_nat (Z.min (Z.max (Z.of_nat (length a)) 0)
                       (Z.of_nat (length a + (length m + length b)))))
    with (length a) by lia.
  replace (Z.to_nat (Z.min (Z.max (Z.of_nat (length a) + Z.of_nat (length m)) 0)
                       (Z.of_nat (length a + (length m + length b)))))
    with (length a + length m)%nat by lia.
  rewrite Nat.max_r, Nat.min_l by lia.
  rewrite drop_app_length.
  replace (length a + length m - length a)%nat with (length m) by lia.
  apply take_app_length.
Qed.

Lemma trim_of_normal s : normalizeText s = s -> trim s = s.
Proof. intros H. rewrite <- H. unfold normalizeText. apply trim_fixed. Qed.

End SubstringFacts.

(** X5. On a text in normal form the offsets found are offsets of the
    text itself: when the text and both phrases are their own normal
    forms, the first occurrence of the start phrase ends where [between]
    begins, the last occurrence of the end phrase begins where [between]
    ends, and [between] has more than one unit, the function returns
    [between], trimmed and cleaned of a leading single letter. *)
Theorem extractTextBetweenKeywords_normal_text before start between stop after :
  let fullText := before ++ start ++ between ++ stop ++ after in
  normalizeText fullText = fullText ->
  normalizeText start = start ->
  normalizeText stop = stop ->
  start <> [] ->
  stop <> [] ->
  indexOf fullText start = len before ->
  lastIndexOf fullText stop = len before + len start + len between ->
  1 < len between ->
  extractTextBetweenKeywords fullText (Some start) (Some stop)
  = stripLeadingLetter (trim between).
Proof.
  intros fullText. subst fullText.
  remember (before ++ start ++ between ++ stop ++ after) as fullText eqn:Efull.
  intros Hn Hs He Hstart Hstop Hfirst Hlast Hbetween.
  assert (Hlen : 0 < len fullText).
  { rewrite Efull. unfold len. rewrite !length_app.
    destruct start; [congruence | simpl; lia]. }
  assert (Ht : truthy fullText = true)
    by (destruct fullText; [unfold len in Hlen; simpl in Hlen; lia | reflexivity]).
  assert (Hts : truthy start = true) by now apply truthy_nonempty.
  assert (Htp : truthy stop = true) by now apply truthy_nonempty.
  assert (Hb : 0 <= len before) by (unfold len; lia).
  assert (Hl : 0 <= len start) by (unfold len; lia).
  unfold extractTextBetweenKeywords, keywordLength.
  change (orEmpty (Some start)) with start.
  change (orEmpty (Some stop)) with stop.
  rewrite Hn, Hs, He, (trim_of_normal _ Hn), Hfirst, Hlast, Ht, Hts, Htp.
  repeat match goal with
         | |- context [?a =? ?b] =>
             destruct (Z.eqb_spec a b); [lia|]
         | |- context [?a >? ?b] =>
             rewrite (Z.gtb_ltb a b); destruct (Z.ltb_spec b a); [|lia]
         | |- context [?a <=? ?b] =>
             destruct (Z.leb_spec a b); [lia|]
         end.
  cbn [negb andb orb].
  f_equal. f_equal. rewrite Efull.
  replace (before ++ start ++ between ++ stop ++ after)
    with ((before ++ start) ++ between ++ (stop ++ after))
    by (now rewrite <- !app_assoc).
  replace (len before + len start) with (len (before ++ start))
    by (unfold len; rewrite length_app; lia).
  apply substring_middle.
Qed.

Lemma extractTextBetweenKeywords_normal_text_witness :
  extractTextBetweenKeywords
    ($"hello " ++ $"magic word" ++ $" an apple pie " ++ $"magic stop" ++ $" bye")
    (Some $"magic word") (Some $"magic stop")
  = stripLeadingLetter (trim $" an apple pie ")
  /\ stripLeadingLetter (trim $" an apple pie ") = $"an apple pie".
Proof.
  split; [|reflexivity].
  apply (extractTextBetweenKeywords_normal_text
           $"hello " $"magic word" $" an apple pie " $"magic stop" $" bye");
    try (vm_compute; reflexivity); vm_compute; congruence.
Defined.

(** ** The splicer: when it returns, what it returns, how it composes *)

Section SpliceFacts.

Lemma byteValue_toUint8 v : byteValue (toUint8 v) = v mod 256.
Proof.
  unfold byteValue, toUint8.
  pose proof (Z.mod_pos_bound v 256 eq_refl) as Hv.
  rewrite (Byte.to_of_N (N_of_ascii (ascii_of_N (Z.to_N (v mod 256)))))
    by (symmetry; apply byte_of_ascii_via_N).
  rewrite N_ascii_embedding by lia. lia.
Qed.

Lemma le16_value v :
  0 <= v <= 65535 ->
  byteValue (toUint8 v) + byteValue (toUint8 (v / 2 ^ 8)) * 2 ^ 8 = v.
Proof.
  intros H. rewrite !byteValue_toUint8.
  change (2 ^ 8) with 256. Z.div_mod_to_equations. lia.
Qed.

Lemma le32_value v :
  0 <= v <= 4294967295 ->
  byteValue (toUint8 v) + byteValue (toUint8 (v / 2 ^ 8)) * 2 ^ 8
  + byteValue (toUint8 (v / 2 ^ 16)) * 2 ^ 16
  + byteValue (toUint8 (v / 2 ^ 24)) * 2 ^ 24 = v.
Proof.
  intros H. rewrite !byteValue_toUint8.
  change (2 ^ 16) with (2 ^ 8 * 2 ^ 8). change (2 ^ 24) with (2 ^ 8 * 2 ^ 8 * 2 ^ 8).
  rewrite <- !Z.div_div by lia. change (2 ^ 8) with 256.
  set (a := v / 256). set (b := a / 256). set (c := b / 256).
  pose proof (Z.div_mod v 256 ltac:(lia)) as Hv. fold a in Hv.
  pose proof (Z.div_mod a 256 ltac:(lia)) as Ha. fold b in Ha.
  pose proof (Z.div_mod b 256 ltac:(lia)) as Hb. fold c in Hb.
  pose proof (Z.mod_pos_bound v 256 eq_refl).
  pose proof (Z.mod_pos_bound a 256 eq_refl).
  pose proof (Z.mod_pos_bound b 256 eq_refl).
  assert (0 <= c < 256).
  { subst c b a. split.
    - repeat apply Z.div_pos; lia.
    - repeat (apply Z.div_lt_upper_bound; [lia|]). lia. }
  rewrite (Z.mod_small c) by lia. lia.
Qed.

(** Reading back the fields of a canonical header. *)
Lemma canonicalHeader_fields numChannels sampleRate bitsPerSample pcmLength
    (payload : Buffer) :
  0 <= numChannels <= 65535 ->
  0 <= sampleRate <= 4294967295 ->
  0 <= bitsPerSample <= 65535 ->
  0 <= pcmLength <= 4294967295 - 36 ->
  let out :=
    canonicalHeader numChannels sampleRate bitsPerSample pcmLength ++ payload in
  readUInt32LE out 4 = Some (36 + pcmLength)
  /\ readUInt16LE out 22 = Some numChannels
  /\ readUInt32LE out 24 = Some sampleRate
  /\ readUInt16LE out 34 = Some bitsPerSample
  /\ readUInt32LE out 40 = Some pcmLength.
Proof.
  intros Hc Hr Hb Hp out. subst out.
  unfold readUInt16LE, readUInt32LE, canonicalHeader, le16, le32.
  cbn [app map list_ascii_of_string lookup list_lookup Nat.add mbind option_bind].
  rewrite !le32_value by lia. rewrite !le16_value by lia. repeat split.
Qed.

Lemma writeUInt32LE_out_of_range value off (buf : Buffer) :
  outOfRange value 4294967295 = true -> writeUInt32LE value off buf = None.
Proof. intros H. unfold writeUInt32LE. now rewrite H. Qed.

Lemma writeUInt16LE_out_of_range value off (buf : Buffer) :
  outOfRange value 65535 = true -> writeUInt16LE value off buf = None.
Proof. intros H. unfold writeUInt16LE. now rewrite H. Qed.

Lemma outOfRange_ofZ_above v max : max < v -> outOfRange (ofZ v) max = true.
Proof.
  intros H. unfold outOfRange, ofZ. simpl.
  rewrite Z.gtb_ltb. apply orb_true_iff. left. apply Z.ltb_lt. lia.
Qed.

Lemma outOfRange_divNum_above v max :
  8 * max < v -> outOfRange (divNum v 8) max = true.
Proof.
  intros H. unfold outOfRange, divNum. simpl.
  rewrite Z.gtb_ltb. apply orb_true_iff. left. apply Z.ltb_lt. lia.
Qed.

Ltac header_length :=
  repeat first [ rewrite length_inserts | rewrite length_write ];
  apply length_alloc.

(** The writes into the header, one after the other; a write whose
    value is too large ends the run. *)
Ltac write_header Hsize :=
  repeat first
    [ rewrite write_prefix by (apply Hsize; [simpl; lia | header_length])
    | rewrite writeUInt32LE_prefix
        by first [ apply Hsize; [simpl; lia | header_length]
                 | apply outOfRange_ofZ; lia | apply outOfRange_divNum; nia ]
    | rewrite writeUInt16LE_prefix
        by first [ apply Hsize; [simpl; lia | header_length]
                 | apply outOfRange_ofZ; lia | apply outOfRange_divNum; nia ]
    | rewrite writeUInt32LE_out_of_range
        by first [ apply outOfRange_ofZ_above; lia
                 | apply outOfRange_divNum_above; nia ]
    | rewrite writeUInt16LE_out_of_range
        by first [ apply outOfRange_ofZ_above; lia
                 | apply outOfRange_divNum_above; nia ]
    | progress cbn [mbind option_bind] ].

Lemma combineWavBuffers_overflow (firstBuffer second : Buffer) (rest : list Buffer)
    (numChannels sampleRate bitsPerSample : Z) :
  readUInt16LE firstBuffer 22 = Some numChannels ->
  readUInt32LE firstBuffer 24 = Some sampleRate ->
  readUInt16LE firstBuffer 34 = Some bitsPerSample ->
  4294967295 < 36 + Z.of_nat (length (combinedPCMOf (firstBuffer :: second :: rest)))
  \/ 8 * 4294967295 < sampleRate * numChannels * bitsPerSample
  \/ 8 * 65535 < numChannels * bitsPerSample ->
  combineWavBuffers (firstBuffer :: second :: rest) = None.
Proof.
  intros Hc Hr Hb Hover.
  pose proof (readUInt16LE_range _ _ _ Hc).
  pose proof (readUInt32LE_range _ _ _ Hr).
  pose proof (readUInt16LE_range _ _ _ Hb).
  assert (Hsize : forall (h : Buffer) n, (n <= 44)%nat -> length h = 44%nat ->
                    (n <= length h)%nat) by (intros; lia).
  unfold combineWavBuffers.
  set (pcm := combinedPCMOf (firstBuffer :: second :: rest)) in *.
  rewrite alloc_app, Hc, Hr, Hb. cbn [mbind option_bind].
  destruct (Z.le_gt_cases (36 + Z.of_nat (length pcm)) 4294967295) as [Hs|Hs];
    [|now write_header Hsize].
  destruct (Z.le_gt_cases (sampleRate * numChannels * bitsPerSample)
              (8 * 4294967295)) as [Hrate|Hrate]; [|now write_header Hsize].
  assert (Halign : 8 * 65535 < numChannels * bitsPerSample) by lia.
  now write_header Hsize.
Qed.

Lemma combineWavBuffers_same_fields (f s : Buffer) (r : list Buffer)
    (f' s' : Buffer) (r' : list Buffer) :
  readUInt16LE f 22 = readUInt16LE f' 22 ->
  readUInt32LE f 24 = readUInt32LE f' 24 ->
  readUInt16LE f 34 = readUInt16LE f' 34 ->
  combinedPCMOf (f :: s :: r) = combinedPCMOf (f' :: s' :: r') ->
  combineWavBuffers (f :: s :: r) = combineWavBuffers (f' :: s' :: r').
Proof.
  intros H1 H2 H3 H4. unfold combineWavBuffers.
  now rewrite H1, H2, H3, H4.
Qed.

Lemma combineWavBuffers_reads (f s : Buffer) (r : list Buffer) (out : Buffer) :
  combineWavBuffers (f :: s :: r) = Some out ->
  exists numChannels sampleRate bitsPerSample,
    readUInt16LE f 22 = Some numChannels
    /\ readUInt32LE f 24 = Some sampleRate
    /\ readUInt16LE f 34 = Some bitsPerSample.
Proof.
  unfold combineWavBuffers. intros H.
  destruct (readUInt16LE f 22) as [numChannels|]; [|discriminate H].
  destruct (readUInt32LE f 24) as [sampleRate|]; [|discriminate H].
  destruct (readUInt16LE f 34) as [bitsPerSample|]; [|discriminate H].
  now exists numChannels, sampleRate, bitsPerSample.
Qed.

(** When two or more fragments are spliced: the reads and the ranges
    that let the call return, and the buffer it then returns. *)
Lemma combineWavBuffers_shape (firstBuffer second : Buffer)
    (rest : list Buffer) (out : Buffer) :
  combineWavBuffers (firstBuffer :: second :: rest) = Some out
  <-> exists numChannels sampleRate bitsPerSample,
        readUInt16LE firstBuffer 22 = Some numChannels
        /\ readUInt32LE firstBuffer 24 = Some sampleRate
        /\ readUInt16LE firstBuffer 34 = Some bitsPerSample
        /\ 36 + Z.of_nat (length (concat (map (drop 44) (firstBuffer :: second :: rest))))
           <= 4294967295
        /\ sampleRate * numChannels * bitsPerSample <= 8 * 4294967295
        /\ numChannels * bitsPerSample <= 8 * 65535
        /\ out = canonicalHeader numChannels sampleRate bitsPerSample
                   (Z.of_nat (length (concat (map (drop 44)
                                                (firstBuffer :: second :: rest)))))
                 ++ concat (map (drop 44) (firstBuffer :: second :: rest)).
Proof.
  set (payload := concat (map (drop 44) (firstBuffer :: second :: rest))).
  assert (Hpcm : combinedPCMOf (firstBuffer :: second :: rest) = payload)
    by apply combinedPCMOf_concat.
  split.
  - intros Hout.
    destruct (combineWavBuffers_reads _ _ _ _ Hout)
      as (numChannels & sampleRate & bitsPerSample & Hc & Hr & Hb).
    exists numChannels, sampleRate, bitsPerSample.
    destruct (Z.le_gt_cases (36 + Z.of_nat (length payload)) 4294967295) as [Hs|Hs].
    2: { rewrite (combineWavBuffers_overflow _ _ _ _ _ _ Hc Hr Hb) in Hout;
           [discriminate Hout | left; rewrite Hpcm; lia]. }
    destruct (Z.le_gt_cases (sampleRate * numChannels * bitsPerSample)
                (8 * 4294967295)) as [Hrate|Hrate].
    2: { rewrite (combineWavBuffers_overflow _ _ _ _ _ _ Hc Hr Hb) in Hout;
           [discriminate Hout | right; left; lia]. }
    destruct (Z.le_gt_cases (numChannels * bitsPerSample) (8 * 65535))
      as [Halign|Halign].
    2: { rewrite (combineWavBuffers_overflow _ _ _ _ _ _ Hc Hr Hb) in Hout;
           [discriminate Hout | right; right; lia]. }
    pose proof (combineWavBuffers_spliced _ second rest _ _ _ Hc Hr Hb) as H.
    cbv zeta in H. rewrite Hpcm in H.
    rewrite (H Hs Hrate Halign) in Hout. injection Hout as <-.
    now repeat split.
  - intros (numChannels & sampleRate & bitsPerSample
            & Hc & Hr & Hb & Hs & Hrate & Halign & ->).
    pose proof (combineWavBuffers_spliced _ second rest _ _ _ Hc Hr Hb) as H.
    cbv zeta in H. rewrite Hpcm in H.
    now apply H.
Qed.

(** The format fields of a splice are those of its first fragment. *)
Lemma combineWavBuffers_format_fields (firstBuffer second : Buffer)
    (rest : list Buffer) (out : Buffer) :
  combineWavBuffers (firstBuffer :: second :: rest) = Some out ->
  readUInt16LE out 22 = readUInt16LE firstBuffer 22
  /\ readUInt32LE out 24 = readUInt32LE firstBuffer 24
  /\ readUInt16LE out 34 = readUInt16LE firstBuffer 34.
Proof.
  intros Hout.
  apply combineWavBuffers_shape in Hout
    as (numChannels & sampleRate & bitsPerSample
        & Hc & Hr & Hb & Hs & _ & _ & ->).
  set (payload := concat (map (drop 44) (firstBuffer :: second :: rest))) in *.
  pose proof (readUInt16LE_range _ _ _ Hc).
  pose proof (readUInt32LE_range _ _ _ Hr).
  pose proof (readUInt16LE_range _ _ _ Hb).
  destruct (canonicalHeader_fields numChannels sampleRate bitsPerSample
              (Z.of_nat (length payload)) payload)
    as (_ & H22 & H24 & H34 & _); try lia.
  rewrite H22, H24, H34, Hc, Hr, Hb. repeat split.
Qed.

End SpliceFacts.

(** X6. For two or more fragments the splicer returns exactly when the
    three format fields lie inside the first fragment and the values to
    write fit their header fields; what it returns is then the
    canonical header built from those fields followed by the bytes
    after offset 44 of every fragment, in order, so the output has 44
    bytes plus, for each fragment, its length beyond 44. *)
Theorem combineWavBuffers_returns_iff (firstBuffer second : Buffer)
    (rest : list Buffer) (out : Buffer) :
  let fragments := firstBuffer :: second :: rest in
  let payload := concat (map (drop 44) fragments) in
  (combineWavBuffers fragments = Some out
   <-> exists numChannels sampleRate bitsPerSample,
         readUInt16LE firstBuffer 22 = Some numChannels
         /\ readUInt32LE firstBuffer 24 = Some sampleRate
         /\ readUInt16LE firstBuffer 34 = Some bitsPerSample
         /\ 36 + Z.of_nat (length payload) <= 4294967295
         /\ sampleRate * numChannels * bitsPerSample <= 8 * 4294967295
         /\ numChannels * bitsPerSample <= 8 * 65535
         /\ out = canonicalHeader numChannels sampleRate bitsPerSample
                    (Z.of_nat (length payload)) ++ payload)
  /\ (combineWavBuffers fragments = Some out ->
      length out
      = (44 + list_sum (map (fun b => length b - 44) fragments))%nat).
Proof.
  cbv zeta.
  pose proof (combineWavBuffers_shape firstBuffer second rest out) as Hiff.
  split; [exact Hiff|].
  intros Hout. apply Hiff in Hout as (? & ? & ? & _ & _ & _ & _ & _ & _ & ->).
  rewrite length_app, canonicalHeader_length. f_equal.
  rewrite <- combinedPCMOf_concat. apply combinedPCMOf_length.
Qed.

Lemma combineWavBuffers_returns_iff_witness :
  combineWavBuffers [wavFragment [x01]; truncatedFragment; wavFragment [x03; x04]]
  = Some (wavFragment [x01; x03; x04])
  /\ length (wavFragment [x01; x03; x04]) = 47%nat.
Proof.
  destruct (combineWavBuffers_returns_iff (wavFragment [x01]) truncatedFragment
              [wavFragment [x03; x04]] (wavFragment [x01; x03; x04]))
    as [[_ Hback] Hlength].
  assert (H : combineWavBuffers
                [wavFragment [x01]; truncatedFragment; wavFragment [x03; x04]]
              = Some (wavFragment [x01; x03; x04])).
  { apply Hback. exists 1, 16000, 16.
    repeat split; try (vm_compute; reflexivity); vm_compute; discriminate. }
  split; [exact H | exact (Hlength H)].
Defined.

(** X7. The output of a splice of two or more fragments is a fragment
    of the same format: channel count, sample rate and bits per sample
    read from it are those of the first fragment, its data size field
    is its length less 44 and its RIFF size field is its length less
    8. *)
Theorem combineWavBuffers_keeps_format (firstBuffer second : Buffer)
    (rest : list Buffer) (out : Buffer) :
  combineWavBuffers (firstBuffer :: second :: rest) = Some out ->
  readUInt16LE out 22 = readUInt16LE firstBuffer 22
  /\ readUInt32LE out 24 = readUInt32LE firstBuffer 24
  /\ readUInt16LE out 34 = readUInt16LE firstBuffer 34
  /\ readUInt32LE out 40 = Some (Z.of_nat (length out) - 44)
  /\ readUInt32LE out 4 = Some (Z.of_nat (length out) - 8).
Proof.
  intros Hout.
  destruct (combineWavBuffers_format_fields _ _ _ _ Hout) as (H22 & H24 & H34).
  split; [exact H22|]. split; [exact H24|]. split; [exact H34|].
  apply combineWavBuffers_shape in Hout
    as (numChannels & sampleRate & bitsPerSample
        & Hc & Hr & Hb & Hs & _ & _ & ->).
  set (payload := concat (map (drop 44) (firstBuffer :: second :: rest))) in *.
  pose proof (readUInt16LE_range _ _ _ Hc).
  pose proof (readUInt32LE_range _ _ _ Hr).
  pose proof (readUInt16LE_range _ _ _ Hb).
  destruct (canonicalHeader_fields numChannels sampleRate bitsPerSample
              (Z.of_nat (length payload)) payload)
    as (H4 & _ & _ & _ & H40); try lia.
  rewrite H4, H40, length_app, canonicalHeader_length.
  split; f_equal; lia.
Qed.

Lemma combineWavBuffers_keeps_format_witness :
  readUInt32LE (wavFragment [x01; x03; x04]) 24
  = readUInt32LE (wavFragment [x01]) 24
  /\ readUInt32LE (wavFragment [x01; x03; x04]) 40 = Some 3.
Proof.
  destruct (combineWavBuffers_keeps_format (wavFragment [x01]) truncatedFragment
              [wavFragment [x03; x04]] (wavFragment [x01; x03; x04]))
    as (_ & H24 & _ & H40 & _); [vm_compute; reflexivity|].
  split; [exact H24 | exact H40].
Defined.

(** X8. Splicing in steps is splicing at once: when a splice of two or
    more fragments returns, splicing its output with further fragments
    gives what splicing all the fragments together gives, a buffer or a
    throw alike. *)
Theorem combineWavBuffers_in_steps (a b : Buffer) (r1 : list Buffer)
    (c : Buffer) (r2 : list Buffer) (ab : Buffer) :
  combineWavBuffers (a :: b :: r1) = Some ab ->
  combineWavBuffers (ab :: c :: r2) = combineWavBuffers (a :: b :: r1 ++ c :: r2).
Proof.
  intros Hab.
  destruct (combineWavBuffers_format_fields _ _ _ _ Hab) as (H22 & H24 & H34).
  apply combineWavBuffers_same_fields; try assumption.
  apply combineWavBuffers_shape in Hab as (? & ? & ? & _ & _ & _ & _ & _ & _ & ->).
  rewrite !combinedPCMOf_concat.
  change (a :: b :: r1 ++ c :: r2) with ((a :: b :: r1) ++ c :: r2).
  rewrite map_app, concat_app. cbn [map concat]. f_equal.
Qed.

Lemma combineWavBuffers_in_steps_witness :
  combineWavBuffers [wavFragment [x01; x03; x04]; wavFragment [x05]]
  = combineWavBuffers
      [wavFragment [x01]; truncatedFragment; wavFragment [x03; x04]; wavFragment [x05]].
Proof.
  apply (combineWavBuffers_in_steps (wavFragment [x01]) truncatedFragment
           [wavFragment [x03; x04]] (wavFragment [x05]) []).
  vm_compute. reflexivity.
Defined.

(** ** The transcript selector *)

Section SelectorFacts.




End SelectorFacts.




(** ** The pipeline: state, cache and messages *)

Section RunFacts.

Lemma processDiarization_cases svc transcription st sessionId language
    startKeyword endKeyword :
  let result := processDiarization svc transcription st sessionId language
                  startKeyword endKeyword in
  (fst result = st
   /\ exists ms, snd result
                 = concat (map (fun m => sendTo st sessionId magician m) ms)
                 /\ Forall (fun m => forall s t, m <> summary_msg s t
                                                /\ m <> summarize_complete s t) ms)
  \/ (exists channels transcriptToProcess,
        transcription = TranscribeResult channels
        /\ selectTranscript channels = Some transcriptToProcess
        /\ let filteredText :=
             extractTextBetweenKeywords transcriptToProcess startKeyword endKeyword in
           let topic := fallbackTopic filteredText in
           fst result = setTopic st sessionId topic
           /\ snd result
              = sendTo st sessionId magician (magic_transcript (trim transcriptToProcess))
                ++ sendTo st sessionId spectator (summary_msg filteredText topic)
                ++ sendTo st sessionId magician (summarize_complete filteredText topic)).
Proof.
  cbv zeta. unfold processDiarization.
  destruct transcription as [| |channels].
  - left. split; [reflexivity|]. eexists [_]. cbn [map concat]. rewrite app_nil_r.
    split; [reflexivity|]. constructor; [|constructor]. split; discriminate.
  - left. split; [reflexivity|]. eexists [_]. cbn [map concat]. rewrite app_nil_r.
    split; [reflexivity|]. constructor; [|constructor]. split; discriminate.
  - destruct (selectTranscript channels) as [t|] eqn:Esel.
    + destruct (negb _ || _).
      * left. split; [reflexivity|]. eexists [_; _]. cbn [map concat].
        rewrite app_nil_r. split; [reflexivity|].
        repeat constructor; discriminate.
      * right. exists channels, t. rewrite summarizeAndDeliver_eq.
        repeat split. exact Esel.
    + left. split; [reflexivity|]. eexists [_]. cbn [map concat]. rewrite app_nil_r.
      split; [reflexivity|]. constructor; [|constructor]. split; discriminate.
Qed.


(** A run either leaves the state alone and sends neither result
    message, or caches the topic both result messages carry. *)
Lemma processDiarization_outcome svc transcription st sessionId language
    startKeyword endKeyword :
  let result := processDiarization svc transcription st sessionId language
                  startKeyword endKeyword in
  (fst result = st
   /\ forall sid r summary topic,
        ~ In (Send sid r (summary_msg summary topic)) (snd result)
        /\ ~ In (Send sid r (summarize_complete summary topic)) (snd result))
  \/ (exists summary topic,
        topic <> []
        /\ sessionTopics (fst result) !! sessionId = Some topic
        /\ forall sid r s t,
             In (Send sid r (summary_msg s t)) (snd result)
             \/ In (Send sid r (summarize_complete s t)) (snd result) ->
             s = summary /\ t = topic).
Proof.
  intros result.
  destruct (processDiarization_cases svc transcription st sessionId language
              startKeyword endKeyword)
    as [[Hst (ms & Hms & Hall)] | (channels & t & _ & _ & Hst & Heff)];
    fold result in Hst; try fold result in Hms; try fold result in Heff.
  - left. split; [exact Hst|]. intros sid r summary topic. rewrite Hms.
    split; intros H; apply in_concat in H as (l & Hl & H);
      apply in_map_iff in Hl as (m & <- & Hm); apply in_sendTo in H;
      rewrite List.Forall_forall in Hall; destruct (Hall m Hm summary topic);
      congruence.
  - cbv zeta in Hst, Heff. rewrite Hst. unfold setTopic. cbn [sessionTopics].
    right. eexists _, _. split; [apply truthy_nonempty, fallbackTopic_truthy|].
    split; [apply lookup_insert_eq|].
    intros sid r s0 t0 H. rewrite Heff in H.
    destruct H as [H | H];
      repeat (apply in_app_or in H as [H | H]);
      apply in_sendTo in H; try discriminate H; injection H as _ _ -> ->; now split.
Qed.

(** What a run does to the state: nothing, or one topic cached. *)
Lemma processDiarization_frame svc transcription st sessionId language
    startKeyword endKeyword :
  fst (processDiarization svc transcription st sessionId language
         startKeyword endKeyword) = st
  \/ exists topic,
       topic <> []
       /\ fst (processDiarization svc transcription st sessionId language
                 startKeyword endKeyword) = setTopic st sessionId topic.
Proof.
  pose proof (processDiarization_cases svc transcription st sessionId language
                startKeyword endKeyword) as H. cbv zeta in H.
  destruct H as [[Hst _] | (channels & t & _ & _ & Hst & _)]; [now left | right].
  eexists. split; [|exact Hst]. apply truthy_nonempty, fallbackTopic_truthy.
Qed.

End RunFacts.

(** X11. For a session id that is no property name of
    [Object.prototype]: a pipeline run never touches the audio buffers
    or the connections, and of the cached topics only the one of its
    own session.  Either it changes nothing at all, and then sends
    neither result message, or it caches under its session the topic
    that both result messages carry. *)
Theorem processDiarization_state svc transcription st sessionId language
    startKeyword endKeyword :
  inheritedName sessionId = false ->
  let result := processDiarization svc transcription st sessionId language
                  startKeyword endKeyword in
  audioChunks (fst result) = audioChunks st
  /\ sessions (fst result) = sessions st
  /\ (forall other, other <> sessionId ->
        sessionTopics (fst result) !! other = sessionTopics st !! other)
  /\ ((fst result = st
       /\ forall sid r summary topic,
            ~ In (Send sid r (summary_msg summary topic)) (snd result)
            /\ ~ In (Send sid r (summarize_complete summary topic)) (snd result))
      \/ (exists summary topic,
            topic <> []
            /\ sessionTopics (fst result) !! sessionId = Some topic
            /\ forall sid r s t,
                 In (Send sid r (summary_msg s t)) (snd result)
                 \/ In (Send sid r (summarize_complete s t)) (snd result) ->
                 s = summary /\ t = topic)).
Proof.
  intros _ result.
  pose proof (processDiarization_frame svc transcription st sessionId language
                startKeyword endKeyword) as Hframe.
  fold result in Hframe.
  split; [destruct Hframe as [-> | (topic & _ & ->)]; reflexivity|].
  split; [destruct Hframe as [-> | (topic & _ & ->)]; reflexivity|].
  split.
  - intros other Ho. destruct Hframe as [-> | (topic & _ & ->)]; [reflexivity|].
    unfold setTopic. cbn [sessionTopics]. now rewrite lookup_insert_ne.
  - apply processDiarization_outcome.
Qed.

Lemma processDiarization_state_witness :
  sessionTopics
    (fst (processDiarization sampleServices sampleTranscription
            (setTopic (bothConnected $"s1") $"s0" $"tea") $"s1" $"en"
            (Some $"magic start") (Some $"magic stop"))) !! $"s0"
  = Some $"tea".
Proof.
  pose proof (processDiarization_state sampleServices sampleTranscription
                (setTopic (bothConnected $"s1") $"s0" $"tea") $"s1" $"en"
                (Some $"magic start") (Some $"magic stop") eq_refl) as H.
  cbv zeta in H. destruct H as (_ & _ & Hother & _).
  refine (eq_trans (Hother $"s0" _) _); [discriminate | reflexivity].
Defined.

(** X12. A cached topic is never empty: when every cached topic is
    non-empty before a run, every cached topic is non-empty after it. *)
Theorem processDiarization_keeps_topics_nonempty svc transcription st sessionId
    language startKeyword endKeyword :
  (forall sid topic, sessionTopics st !! sid = Some topic -> topic <> []) ->
  forall sid topic,
    sessionTopics
      (fst (processDiarization svc transcription st sessionId language
              startKeyword endKeyword)) !! sid = Some topic ->
    topic <> [].
Proof.
  intros Hinv sid topic.
  destruct (processDiarization_frame svc transcription st sessionId language
              startKeyword endKeyword) as [-> | (cached & Hne & ->)];
    [apply Hinv|].
  unfold setTopic. cbn [sessionTopics].
  destruct (decide (sid = sessionId)) as [-> | Hd].
  - rewrite lookup_insert_eq. now intros [= <-].
  - rewrite lookup_insert_ne by congruence. apply Hinv.
Qed.

Lemma processDiarization_keeps_topics_nonempty_witness :
  sessionTopics
    (fst (processDiarization sampleServices sampleTranscription
            (bothConnected $"s1") $"s1" $"en"
            (Some $"magic start") (Some $"magic stop"))) !! $"s1"
  = Some $"hello big"
  /\ $"hello big" <> [].
Proof.
  split; [vm_compute; reflexivity|].
  apply (processDiarization_keeps_topics_nonempty sampleServices
           sampleTranscription (bothConnected $"s1") $"s1" $"en"
           (Some $"magic start") (Some $"magic stop"))
    with (sid := $"s1").
  - intros sid topic H. vm_compute in H. discriminate H.
  - vm_compute. reflexivity.
Defined.



(** ** The service wrappers *)

Section WrapperFacts.

Lemma blank_test text :
  (negb (truthy text) || (len (trim text) =? 0)) = true <-> trim text = [].
Proof.
  split.
  - intros H. apply orb_true_iff in H as [H | H].
    + destruct text; [reflexivity | discriminate H].
    + apply trim_empty_length. now apply Z.eqb_eq.
  - intros H. rewrite H. apply orb_true_r.
Qed.

Lemma translateText_down svc call text target :
  (forall n t l, translate svc n t l = None) ->
  translateText svc call (Some text) target = Some text.
Proof.
  intros H. unfold translateText. rewrite H.
  now destruct (negb (truthy text) || (len (trim text) =? 0)).
Qed.

Lemma substring_prefix s n : 0 <= n -> substring s 0 n = take (Z.to_nat n) s.
Proof.
  intros H. unfold substring, clampIndex, len.
  replace (Z.to_nat (Z.min (Z.max 0 0) (Z.of_nat (length s)))) with 0%nat by lia.
  rewrite Nat.max_0_l, Nat.min_0_l, Nat.sub_0_r. cbn [drop].
  destruct (Z.le_gt_cases n (Z.of_nat (length s))).
  - f_equal. lia.
  - rewrite (take_ge s (Z.to_nat n)) by lia. apply take_ge. lia.
Qed.

End WrapperFacts.

(** X14. With the Translation Service down (every call throws), the
    branch for other languages works on the untranslated text: the
    summary is the Summarization Service's summary of the filtered text,
    asked for in English, and the topic is the AI topic of the filtered
    text; nothing is lost and the [catch] of line 491 is not taken. *)
Theorem languageBranch_translation_down svc filteredText language :
  startsWith $"en" (toLowerCase language) = false ->
  (forall n text target, translate svc n text target = None) ->
  languageBranch svc filteredText language
  = (Some (fst (summarizeTextWithDeepgram svc filteredText $"en")),
     Some (extractExactTopic svc filteredText)).
Proof.
  intros Hlang Hdown. unfold languageBranch.
  rewrite Hlang, !(translateText_down svc _ _ _ Hdown). reflexivity.
Qed.

Lemma languageBranch_translation_down_witness :
  languageBranch
    (mkServices (fun _ _ => Some (Some $"Ein Gruss.", None))
       (fun _ => Some $" Gruss ") (fun _ _ _ => None))
    $"hallo welt" $"de"
  = (Some $"Ein Gruss.", Some $"Gruss").
Proof.
  rewrite languageBranch_translation_down; reflexivity.
Defined.

(** X15. The AI topic of a blank text is the empty string, without a
    call.  For any other text, a reply is returned trimmed (and may be
    empty), while a failed call gives a fallback that is never empty:
    the first three words longer than three units, joined by spaces,
    or, without such a word, the first twenty units of the text. *)
Theorem extractExactTopic_edges svc text :
  (trim text = [] -> extractExactTopic svc text = [])
  /\ (trim text <> [] ->
      forall content, chatCompletion svc text = Some content ->
                      extractExactTopic svc text = trim content)
  /\ (trim text <> [] -> chatCompletion svc text = None ->
      extractExactTopic svc text <> []
      /\ (extractExactTopic svc text
          = Js.join $" " (take 3 (List.filter (fun w => len w >? 3) (splitWs text)))
          \/ extractExactTopic svc text = take 20 text)).
Proof.
  unfold extractExactTopic.
  destruct (negb (truthy text) || (len (trim text) =? 0)) eqn:E.
  - apply blank_test in E. repeat split; congruence.
  - assert (Hne : trim text <> [])
      by (intros H; apply blank_test in H; congruence).
    split; [congruence|]. split; [now intros _ content ->|].
    intros _ ->. rewrite substring_prefix by lia.
    assert (Ht : truthy (take (Z.to_nat 20) text) = true)
      by (destruct text; [now destruct Hne | reflexivity]).
    split; [now apply truthy_nonempty, orString_truthy|].
    unfold orString. destruct (truthy (Js.join _ _)); [now left | now right].
Qed.

Lemma extractExactTopic_edges_witness :
  extractExactTopic (mkServices (fun _ _ => None) (fun _ => None) (fun _ _ _ => None))
    $"   " = []
  /\ extractExactTopic (mkServices (fun _ _ => None) (fun _ => None) (fun _ _ _ => None))
       $"we saw the big red elephants today" <> [].
Proof.
  destruct (extractExactTopic_edges
              (mkServices (fun _ _ => None) (fun _ => None) (fun _ _ _ => None))
              $"   ") as (Hblank & _).
  destruct (extractExactTopic_edges
              (mkServices (fun _ _ => None) (fun _ => None) (fun _ _ _ => None))
              $"we saw the big red elephants today") as (_ & _ & Hdown).
  split; [apply Hblank; reflexivity|].
  apply Hdown; [vm_compute; discriminate | reflexivity].
Defined.

(** ** The fragment handler and the manual messages: frame and transitions *)

Section TransitionFacts.



Lemma chunks_refreshed st req :
  chunks (refreshed st req) = chunksOf st (req_sessionId req)
  /\ isRecording (refreshed st req) = recordingOf st (req_sessionId req).
Proof.
  unfold refreshed, chunksOf, recordingOf.
  now destruct (audioChunks st !! req_sessionId req).
Qed.

End TransitionFacts.




Section ChunkFacts.

Lemma Forall_sendTo_plain (P : Effect -> bool) st sessionId r m :
  P (Send sessionId r m) = false ->
  Forall (fun e => P e = false) (sendTo st sessionId r m).
Proof.
  intros H. unfold sendTo. destruct (isOpen st sessionId r); now repeat constructor.
Qed.


Lemma triple_inj {A B C} (a a' : A) (b b' : B) (c c' : C) :
  (a, b, c) = (a', b', c') -> a = a' /\ b = b' /\ c = c'.
Proof. intros [= -> -> ->]. now repeat split. Qed.

End ChunkFacts.

Ltac entry_fields :=
  repeat match goal with
         | |- context [chunks (withChunks ?a ?c)] =>
             change (chunks (withChunks a c)) with c
         | |- context [isRecording (withChunks ?a ?c)] =>
             change (isRecording (withChunks a c)) with (isRecording a)
         | |- context [chunks (withRecording ?a ?r)] =>
             change (chunks (withRecording a r)) with (chunks a)
         | |- context [isRecording (withRecording ?a ?r)] =>
             change (isRecording (withRecording a r)) with r
         | |- context [startKeyword (withChunks ?a ?c)] =>
             change (startKeyword (withChunks a c)) with (startKeyword a)
         | |- context [endKeyword (withChunks ?a ?c)] =>
             change (endKeyword (withChunks a c)) with (endKeyword a)
         | |- context [language (withChunks ?a ?c)] =>
             change (language (withChunks a c)) with (language a)
         | |- context [startKeyword (withRecording ?a ?r)] =>
             change (startKeyword (withRecording a r)) with (startKeyword a)
         | |- context [endKeyword (withRecording ?a ?r)] =>
             change (endKeyword (withRecording a r)) with (endKeyword a)
         | |- context [language (withRecording ?a ?r)] =>
             change (language (withRecording a r)) with (language a)
         end.

Ltac plain_effects :=
  repeat first [ apply Forall_sendTo_plain; reflexivity
               | apply List.Forall_app; split
               | apply List.Forall_nil
               | apply List.Forall_cons; [reflexivity|] ].

(** X17. While a session records, a fragment without the end phrase
    that does not open a new window is appended to the fragment
    sequence: the sequence grows by this fragment at its end, the
    session goes on recording, no pipeline run starts and the response
    has [keywordDetected] false. *)
Theorem fragment_appended_while_recording
    req transcript st audioBuffer st' effects response :
  req_file req = Some audioBuffer ->
  recordingOf st (req_sessionId req) = true ->
  hasKeyword transcript (req_endKeyword req) = false ->
  hasKeyword transcript (req_startKeyword req)
  && bool_decide (req_isMagicActive req = Some $"false") = false ->
  processAudioChunk req (Some transcript) st = (st', effects, response) ->
  chunksOf st' (req_sessionId req) = chunksOf st (req_sessionId req) ++ [audioBuffer]
  /\ recordingOf st' (req_sessionId req) = true
  /\ response = json transcript false None
  /\ Forall (fun e => isDiarize e = false) effects.
Proof.
  intros Hfile Hrec Hend Hstart. unfold processAudioChunk.
  destruct (chunks_refreshed st req) as [Hc Hr].
  rewrite Hfile, Hstart, Hend, Hr, Hrec. cbn [andb negb].
  intros H. apply triple_inj in H as (<- & <- & <-).
  rewrite chunksOf_setAudio, recordingOf_setAudio. entry_fields.
  rewrite Hc, Hr, Hrec. repeat split.
  destruct (_ && truthy transcript); plain_effects.
Qed.

Lemma fragment_appended_while_recording_witness :
  let result := processAudioChunk (sampleRequest "true" (wavFragment [x02]))
                  (Some $"an apple a day") recordingState in
  chunksOf (fst (fst result)) $"s1" = [wavFragment [x01]; wavFragment [x02]]
  /\ recordingOf (fst (fst result)) $"s1" = true.
Proof.
  intros result.
  destruct (fragment_appended_while_recording
              (sampleRequest "true" (wavFragment [x02])) $"an apple a day"
              recordingState (wavFragment [x02])
              (fst (fst result)) (snd (fst result)) (snd result))
    as (Hchunks & Hrec & _);
    [reflexivity | reflexivity | vm_compute; reflexivity | vm_compute; reflexivity
    | apply triple_eta |].
  split; [exact Hchunks | exact Hrec].
Defined.



(** X19. The fragment handler never reports [no_recording_error]: its
    branch for an empty sequence at the end trigger comes after the
    fragment was appended and cannot be taken. *)
Theorem processAudioChunk_never_recording_error req transcription st :
  Forall (fun e => isRecordingError e = false)
    (snd (fst (processAudioChunk req transcription st))).
Proof.
  unfold processAudioChunk.
  destruct (req_file req) as [audioBuffer|]; [|constructor].
  destruct transcription as [transcript|]; [|constructor].
  destruct (_ && bool_decide (req_isMagicActive req = Some $"false"));
    [cbn [fst snd]; plain_effects|].
  destruct (_ && bool_decide (req_isMagicActive req = Some $"true")).
  - entry_fields.
    match goal with
    | |- context [(0 <? length (?l ++ [audioBuffer]))%nat] =>
        replace (0 <? length (l ++ [audioBuffer]))%nat with true
          by (symmetry; apply Nat.ltb_lt; rewrite length_app; simpl; lia)
    end.
    destruct (combineWavBuffers _); cbn [fst snd]; plain_effects.
  - cbn [fst snd]. destruct (_ && truthy transcript); plain_effects.
Qed.





(** ** The session registry *)

Section RegistryFacts.


End RegistryFacts.





(** X24. From the pipeline to a late observer, in a session whose id
    is no property name of [Object.prototype]: when a run delivered a
    result with some topic, an observer that joins the run's session
    afterwards, on a registry holding the cache the run left, receives
    that topic. *)
Theorem delivered_topic_reaches_late_observer
    svc transcription st sessionId language startKeyword endKeyword
    sid r summary topic readyState ws (w : Registry.World) :
  inheritedName sessionId = false ->
  let result := processDiarization svc transcription st sessionId language
                  startKeyword endKeyword in
  In (Send sid r (summary_msg summary topic)) (snd result)
  \/ In (Send sid r (summarize_complete summary topic)) (snd result) ->
  Registry.topics w = sessionTopics (fst result) ->
  In (ws, Registry.stored_topic topic)
     (snd (Registry.join readyState ws sessionId $"spectator" w)).
Proof.
  intros _ result Hdelivered Hcache.
  destruct (processDiarization_outcome svc transcription st sessionId language
              startKeyword endKeyword)
    as [[_ Hnone] | (s & t & Hne & Hcached & Hsame)].
  - exfalso. destruct (Hnone sid r summary topic) as [H1 H2].
    destruct Hdelivered; [now apply H1 | now apply H2].
  - destruct (Hsame sid r summary topic Hdelivered) as [_ ->].
    assert (Htopic : Registry.topics w !! sessionId = Some t)
      by (rewrite Hcache; exact Hcached).
    unfold Registry.join. cbn [snd]. rewrite Htopic.
    destruct t as [|c t]; [congruence|].
    right. now left.
Qed.

Lemma delivered_topic_reaches_late_observer_witness :
  In (9%nat, Registry.stored_topic $"hello big")
     (snd (Registry.join (fun _ => 1%nat) 9 $"s1" $"spectator"
             (Registry.mkWorld ∅ ∅ ∅ {[ $"s1" := $"hello big" ]}))).
Proof.
  apply (delivered_topic_reaches_late_observer sampleServices sampleTranscription
           (bothConnected $"s1") $"s1" $"en" (Some $"magic start") (Some $"magic stop")
           $"s1" magician $"hello big world" $"hello big").
  - reflexivity.
  - right. vm_compute. right. right. left. reflexivity.
  - vm_compute. reflexivity.
Defined.







(** ** The topic extractor's strategies *)

Section ExtractorFacts.

Lemma lowerUnit_wordUnit c : isWord c = true -> lowerWordUnit (lowerUnit c) = true.
Proof.
  destruct c as [[] [] [] [] [] [] [] []]; vm_compute; intros H;
    try reflexivity; discriminate H.
Qed.

(** A unit of the lower-cased text after [.replace(/[^\w\s]/g, ' ')]. *)
Lemma blanked_unit c :
  isSpace (if isWord (lowerUnit c) || isSpace (lowerUnit c)
           then lowerUnit c else " "%char) = true
  \/ lowerWordUnit (if isWord (lowerUnit c) || isSpace (lowerUnit c)
                    then lowerUnit c else " "%char) = true.
Proof.
  destruct c as [[] [] [] [] [] [] [] []]; vm_compute;
    first [left; reflexivity | right; reflexivity].
Qed.

Lemma forallb_rev {A} (p : A -> bool) l :
  forallb p l = true -> forallb p (rev l) = true.
Proof.
  rewrite !forallb_forall. intros H x Hx. apply H, in_rev, Hx.
Qed.

Lemma forallb_dropWhile {A} (p q : A -> bool) l :
  forallb p l = true -> forallb p (dropWhile q l) = true.
Proof.
  induction l as [|x l IH]; simpl; [reflexivity|].
  intros H. destruct (q x); [|exact H].
  apply andb_true_iff in H as [_ H]. now apply IH.
Qed.

Lemma forallb_trim (p : ascii -> bool) s :
  forallb p s = true -> forallb p (trim s) = true.
Proof.
  intros H. unfold trim, trimEnd, trimStart.
  now apply forallb_rev, forallb_dropWhile, forallb_rev, forallb_dropWhile.
Qed.

(** The pieces of [split(/\s+/)] hold the units that are no white space. *)
Lemma splitWsFrom_units (p : ascii -> bool) s :
  Forall (fun c => isSpace c = true \/ p c = true) s ->
  forall inSep cur,
    forallb p cur = true ->
    Forall (fun piece => forallb p piece = true) (splitWsFrom inSep cur s).
Proof.
  induction 1 as [|c t Hc _ IH]; intros inSep cur Hcur; simpl.
  - constructor; [now apply forallb_rev | constructor].
  - destruct (isSpace c) eqn:Hs.
    + destruct inSep; [now apply IH|].
      constructor; [now apply forallb_rev | now apply IH].
    + destruct Hc as [Hc | Hc]; [congruence|].
      apply IH. simpl. now rewrite Hc, Hcur.
Qed.

Lemma splitWs_blanked text :
  Forall (fun piece => forallb lowerWordUnit piece = true)
    (splitWs (blankNonWordSpace (toLowerCase text))).
Proof.
  unfold splitWs. apply splitWsFrom_units; [|reflexivity].
  unfold blankNonWordSpace, toLowerCase. rewrite map_map.
  induction text as [|c t IH]; simpl; constructor; [apply blanked_unit | exact IH].
Qed.

Lemma tokens_topicWord text :
  Forall (fun w => topicWord w = true) (tokens text).
Proof.
  apply List.Forall_forall. intros w Hw. unfold tokens in Hw.
  apply filter_In in Hw as [Hw Hm]. unfold topicWord. rewrite Hm. simpl.
  pose proof (splitWs_blanked text) as H.
  rewrite List.Forall_forall in H. now apply H.
Qed.

(** *** What a pattern captures *)

Lemma matchSpaces_cont {R} (Q : R -> Prop) s (k : jsstring -> option R) res :
  (forall rest res', k rest = Some res' -> Q res') ->
  matchSpaces s k = Some res -> Q res.
Proof.
  intros Hk. induction s as [|c t IH]; simpl; [discriminate|].
  destruct (isSpace c); [|discriminate].
  destruct (matchSpaces t k) eqn:E.
  - intros [= <-]. now apply IH.
  - apply Hk.
Qed.

Lemma matchWord_cont {R} (Q : R -> Prop) s :
  forall acc (k : jsstring -> jsstring -> option R) res,
    forallb isWord acc = true ->
    (forall w rest res', forallb isWord w = true -> k w rest = Some res' -> Q res') ->
    matchWord acc s k = Some res -> Q res.
Proof.
  induction s as [|c t IH]; intros acc k res Hacc Hk; cbn [matchWord];
    [discriminate|].
  destruct (isWord c) eqn:Hc; [|discriminate].
  assert (Hnext : forallb isWord (c :: acc) = true) by (simpl; now rewrite Hc).
  destruct (matchWord (c :: acc) t k) eqn:E.
  - intros [= <-]. now apply (IH (c :: acc) k).
  - apply Hk. now apply forallb_rev.
Qed.

Lemma matchRegex_cont {R} (Q : R -> Prop) r :
  forall s group (k : jsstring -> option jsstring -> option R) res,
    (forall g, group = Some g -> forallb isWord g = true) ->
    (forall rest g res',
        (forall w, g = Some w -> forallb isWord w = true) ->
        k rest g = Some res' -> Q res') ->
    matchRegex r s group k = Some res -> Q res.
Proof.
  induction r as [text| | |a IHa b IHb|a IHa b IHb|a IHa];
    intros s group k res Hg Hk; simpl.
  - destruct (matchLit text s); [|discriminate]. now apply Hk.
  - apply matchSpaces_cont. intros rest res'. now apply Hk.
  - apply matchWord_cont; [reflexivity|].
    intros w rest res' Hw. apply Hk. now intros w' [= <-].
  - apply IHa; [exact Hg|]. intros rest g res' Hg'. now apply IHb.
  - destruct (matchRegex a s group k) eqn:E.
    + intros [= <-]. now apply (IHa s group k).
    + now apply IHb.
  - destruct (matchRegex a s group k) eqn:E.
    + intros [= <-]. now apply (IHa s group k).
    + now apply Hk.
Qed.

Lemma matchAt_word r s g rest :
  matchAt r s = Some (g, rest) -> forallb isWord g = true.
Proof.
  unfold matchAt.
  apply (matchRegex_cont (fun res => forallb isWord (fst res) = true) r s None
           (fun rest g => Some (default [] g, rest)) (g, rest)).
  - discriminate.
  - intros rest0 [w|] res' Hw [= <-]; simpl; [now apply Hw | reflexivity].
Qed.

Lemma matchAll_words r text :
  Forall (fun g => forallb isWord g = true) (matchAll r text).
Proof.
  unfold matchAll. generalize 0%nat as skip.
  induction text as [|c t IH]; intros skip; cbn [matchAllFrom]; [constructor|].
  destruct skip as [|n]; [|apply IH].
  destruct (matchAt r (c :: t)) as [[g rest]|] eqn:E; [|apply IH].
  constructor; [now apply (matchAt_word r (c :: t) g rest) | apply IH].
Qed.

Lemma toLowerCase_word g :
  forallb isWord g = true -> forallb lowerWordUnit (toLowerCase g) = true.
Proof.
  induction g as [|c g IH]; simpl; [reflexivity|].
  intros H. apply andb_true_iff in H as [Hc H].
  now rewrite lowerUnit_wordUnit, IH.
Qed.

Lemma countedCaptures_topicWord p text :
  Forall (fun w => topicWord w = true) (countedCaptures p text).
Proof.
  apply List.Forall_forall. intros w Hw. unfold countedCaptures in Hw.
  apply filter_In in Hw as [Hw Hm]. unfold topicWord. rewrite Hm. simpl.
  apply in_map_iff in Hw as [m [<- Hin]].
  apply toLowerCase_word, forallb_trim.
  pose proof (matchAll_words p text) as H.
  rewrite List.Forall_forall in H. now apply H.
Qed.

(** *** The keys of the objects *)

Lemma fold_left_keeps {A B} (I : A -> Prop) (P : B -> Prop) (f : A -> B -> A) :
  (forall a b, I a -> P b -> I (f a b)) ->
  forall l a, Forall P l -> I a -> I (fold_left f l a).
Proof.
  intros Hf l. induction l as [|b l IH]; intros a Hl Ha; simpl; [exact Ha|].
  inversion Hl; subst. apply IH; [assumption|]. now apply Hf.
Qed.

Lemma addCount_keys (K : jsstring -> Prop) wc w n :
  K w -> Forall (fun e => K (fst e)) wc ->
  Forall (fun e => K (fst e)) (addCount wc w n).
Proof.
  intros Hw. induction 1 as [|[k c] wc Hk Hwc IH]; simpl.
  - constructor; [exact Hw | constructor].
  - destruct (eqs k w); constructor; assumption.
Qed.

Lemma addCount_has_new wc w n : hasKey (addCount wc w n) w.
Proof.
  induction wc as [|[k c] wc [c' IH]]; simpl.
  - exists n. now left.
  - destruct (eqs k w) eqn:E.
    + apply bool_decide_eq_true in E as ->. exists (c + n). now left.
    + exists c'. now right.
Qed.

Lemma addCount_has_old wc w n k : hasKey wc k -> hasKey (addCount wc w n) k.
Proof.
  intros [c0 H]. induction wc as [|[k' c] wc IH]; simpl; [destruct H|].
  destruct H as [[= -> ->] | H].
  - destruct (eqs k w); eexists; left; reflexivity.
  - destruct (IH H) as [c' IH']. destruct (eqs k' w).
    + exists c0. now right.
    + exists c'. now right.
Qed.

Lemma in_insertIndex x e l : In x (insertIndex e l) <-> x = e \/ In x l.
Proof.
  induction l as [|y l IH]; simpl; [intuition|].
  destruct (fst e <? fst y)%N; simpl; [|rewrite IH]; intuition.
Qed.

Lemma in_fold_insertIndex x l : In x (fold_right insertIndex [] l) <-> In x l.
Proof.
  induction l as [|e l IH]; simpl; [reflexivity|].
  rewrite in_insertIndex, IH. intuition.
Qed.

(** [Object.entries] lists the own properties, each once more or less
    as the object holds them. *)
Lemma entries_In e wc : In e (entries wc) <-> In e wc.
Proof.
  unfold entries. rewrite in_app_iff, in_map_iff, filter_In. split.
  - intros [[[i e'] [<- H]] | [H _]]; [|exact H].
    apply in_fold_insertIndex, list_elem_of_In, list_elem_of_omap in H.
    destruct H as [x [Hx Hf]]. apply list_elem_of_In in Hx.
    destruct (arrayIndex (fst x)); [|discriminate]. now injection Hf as _ <-.
  - intros H. destruct (arrayIndex (fst e)) as [i|] eqn:E; [left | right; now split].
    exists (i, e). split; [reflexivity|].
    apply in_fold_insertIndex, list_elem_of_In, list_elem_of_omap.
    exists e. split; [now apply list_elem_of_In | now rewrite E].
Qed.

Lemma scores_keys text :
  Forall (fun e => topicWord (fst e) = true /\ inheritedKey (fst e) = false)
    (scores text).
Proof.
  assert (Hbump : forall wc w n,
             Forall (fun e => topicWord (fst e) = true /\ inheritedKey (fst e) = false) wc ->
             topicWord w = true ->
             Forall (fun e => topicWord (fst e) = true /\ inheritedKey (fst e) = false)
               (bump wc w n)).
  { intros wc w n Hwc Hw. unfold bump. destruct (inheritedKey w) eqn:E; [exact Hwc|].
    now apply (addCount_keys
                 (fun k => topicWord k = true /\ inheritedKey k = false)). }
  unfold scores.
  apply (fold_left_keeps _ (fun _ => True)); [| apply List.Forall_forall; auto |].
  - intros wc indicator Hwc _. unfold boost.
    apply (fold_left_keeps _ (fun g => forallb isWord g = true));
      [| apply matchAll_words | exact Hwc].
    intros wc' m Hwc' Hm. cbv zeta.
    destruct (meaningful (toLowerCase m)) eqn:E; [|exact Hwc'].
    apply Hbump; [exact Hwc'|]. unfold topicWord.
    now rewrite E, toLowerCase_word.
  - unfold countWords.
    apply (fold_left_keeps _ (fun w => topicWord w = true));
      [| apply tokens_topicWord | constructor].
    intros wc w Hwc Hw. now apply Hbump.
Qed.

Lemma frequency_topicWord text w :
  extractTopicByFrequency text = Some w ->
  topicWord w = true /\ inheritedKey w = false.
Proof.
  intros H. pose proof (extractTopicByFrequency_by_score text) as Hscore.
  rewrite H in Hscore. destruct Hscore as [count [Hin _]].
  apply (proj1 (entries_In _ _)) in Hin.
  pose proof (scores_keys text) as Hkeys.
  rewrite List.Forall_forall in Hkeys. exact (Hkeys (w, count) Hin).
Qed.

Lemma scorePatterns_keys (K : jsstring -> Prop) text total ps :
  forall index pm,
    Forall (fun e => K (fst e)) pm ->
    (forall p w, In p ps -> In w (countedCaptures p text) -> K w) ->
    Forall (fun e => K (fst e)) (scorePatterns total index ps text pm).
Proof.
  induction ps as [|p ps IH]; intros index pm Hpm Hps; simpl; [exact Hpm|].
  apply IH; [|intros p' w Hp'; apply Hps; now right].
  apply (fold_left_keeps _ (fun w => K w)); [| |exact Hpm].
  - intros wc w Hwc Hw. now apply addCount_keys.
  - apply List.Forall_forall. intros w Hw. apply (Hps p w); [now left | exact Hw].
Qed.

Lemma fold_addCount_has k n l :
  forall pm, hasKey pm k \/ In k l ->
             hasKey (fold_left (fun pm w => addCount pm w n) l pm) k.
Proof.
  induction l as [|w l IH]; intros pm H; simpl.
  - destruct H as [H | []]. exact H.
  - apply IH. destruct H as [H | [-> | H]].
    + left. now apply addCount_has_old.
    + left. apply addCount_has_new.
    + now right.
Qed.

Lemma scorePatterns_has text total k ps :
  forall index pm,
    hasKey pm k \/ (exists p, In p ps /\ In k (countedCaptures p text)) ->
    hasKey (scorePatterns total index ps text pm) k.
Proof.
  induction ps as [|p ps IH]; intros index pm H; simpl.
  - destruct H as [H | [p [[] _]]]. exact H.
  - apply IH. destruct H as [H | [p' [[<- | Hp'] Hk]]].
    + left. apply fold_addCount_has. now left.
    + left. apply fold_addCount_has. now right.
    + right. now exists p'.
Qed.

Lemma sortByCount_nil l : sortByCount l = [] -> l = [].
Proof.
  destruct l as [|x l]; [reflexivity|]. intros H.
  assert (Hx : In x (sortByCount (x :: l))) by (apply in_sortByCount; now left).
  rewrite H in Hx. destruct Hx.
Qed.

(** The pattern strategy returns the key of an entry, and nothing only
    when there is no entry. *)
Lemma extractTopicByPatterns_cases engineChoice text :
  let table :=
    List.filter (fun e => negb (eqs (fst e) $"__proto__")) (patternMatchesOf text) in
  (extractTopicByPatterns engineChoice text = None /\ table = [])
  \/ exists e, In e table /\ extractTopicByPatterns engineChoice text = Some (fst e).
Proof.
  intros table. unfold extractTopicByPatterns. fold table.
  destruct (existsb (fun e => eqs (fst e) $"constructor") table).
  - destruct (entries table) as [|e rest] eqn:E.
    + left. split; [reflexivity|].
      destruct table as [|x t]; [reflexivity|].
      assert (Hx : In x (entries (x :: t))) by (apply entries_In; now left).
      rewrite E in Hx. destruct Hx.
    + right. eexists. split; [|reflexivity].
      apply entries_In. rewrite E. apply nth_In.
      apply Nat.mod_upper_bound. discriminate.
  - destruct (sortByCount (entries table)) as [|e rest] eqn:E.
    + left. split; [reflexivity|].
      apply sortByCount_nil in E.
      destruct table as [|x t]; [reflexivity|].
      assert (Hx : In x (entries (x :: t))) by (apply entries_In; now left).
      rewrite E in Hx. destruct Hx.
    + right. exists e. split; [|reflexivity].
      apply entries_In, in_sortByCount. rewrite E. now left.
Qed.

Lemma patterns_captured engineChoice text w :
  extractTopicByPatterns engineChoice text = Some w ->
  w <> $"__proto__"
  /\ exists p, In p patterns /\ In w (countedCaptures p text).
Proof.
  intros H.
  destruct (extractTopicByPatterns_cases engineChoice text)
    as [[Hnone _] | [[k c] [Hin Hsome]]]; [congruence|].
  rewrite H in Hsome. injection Hsome as ->.
  apply filter_In in Hin as [Hin Hproto]. cbn [fst] in *. split.
  - intros ->. unfold eqs in Hproto.
    rewrite bool_decide_eq_true_2 in Hproto by reflexivity. discriminate.
  - pose proof (scorePatterns_keys
                  (fun k => exists p, In p patterns /\ In k (countedCaptures p text))
                  text (Z.of_nat (length patterns)) patterns 0 []
                  (List.Forall_nil _)
                  (fun p w Hp Hw => ex_intro _ p (conj Hp Hw))) as Hkeys.
    rewrite List.Forall_forall in Hkeys. exact (Hkeys (k, c) Hin).
Qed.

Lemma patterns_topicWord engineChoice text w :
  extractTopicByPatterns engineChoice text = Some w -> topicWord w = true.
Proof.
  intros H. apply patterns_captured in H as [_ [p [_ Hw]]].
  pose proof (countedCaptures_topicWord p text) as Hall.
  rewrite List.Forall_forall in Hall. now apply Hall.
Qed.

Lemma topicWord_nonempty w : topicWord w = true -> w <> [].
Proof. intros H ->. discriminate H. Qed.

Lemma fallback_topicWord text :
  extractFallbackTopic text = $"unknown topic"
  \/ topicWord (extractFallbackTopic text) = true.
Proof.
  unfold extractFallbackTopic.
  destruct (List.filter _ _) as [|w rest] eqn:E; [now left | right].
  assert (Hw : In w (w :: rest)) by now left.
  rewrite <- E in Hw. apply filter_In in Hw as [Hw Hc].
  apply andb_true_iff in Hc as [Hlen Hstop].
  unfold topicWord, meaningful. rewrite Hstop.
  replace (len w >? 2) with true by (symmetry; apply Z.gtb_lt; apply Z.gtb_lt in Hlen; lia).
  simpl. pose proof (splitWs_blanked text) as H.
  rewrite List.Forall_forall in H. now apply H.
Qed.

Lemma gemini_nonempty service topic :
  extractTopicWithGemini service = Some topic -> topic <> [].
Proof.
  destruct service as [| |reply]; simpl; try discriminate.
  destruct (List.filter _ _) as [|w rest] eqn:E; [discriminate|].
  destruct (_ && _); [|discriminate]. intros [= <-].
  assert (Hw : In w (w :: rest)) by now left.
  rewrite <- E in Hw. apply filter_In in Hw as [_ Hlen].
  destruct w as [|c w]; [discriminate Hlen|].
  destruct rest; discriminate.
Qed.

Lemma answered_some r t : answered r = Some t -> r = Some t /\ t <> [].
Proof. destruct r as [[|c s]|]; simpl; intros [= <-]. now split. Qed.

End ExtractorFacts.

(** X28. The frequency strategy returns only words of its own kind:
    whatever the text, a returned topic is made of units of [\w] in
    lower case, has more than two of them, is no stop word and is none
    of the two keys inherited from [Object.prototype]. *)
Theorem extractTopicByFrequency_word (text w : jsstring) :
  extractTopicByFrequency text = Some w ->
  forallb lowerWordUnit w = true
  /\ 2 < len w
  /\ isStopWord w = false
  /\ w <> $"constructor" /\ w <> $"__proto__".
Proof.
  intros H. apply frequency_topicWord in H as [Hword Hinherited].
  unfold topicWord, meaningful in Hword.
  apply andb_true_iff in Hword as [Hm Hunits].
  apply andb_true_iff in Hm as [Hlen Hstop].
  apply negb_true_iff in Hstop. apply Z.gtb_lt in Hlen.
  unfold inheritedKey in Hinherited.
  apply orb_false_iff in Hinherited as [Hc Hp].
  repeat split; try assumption.
  - intros ->. discriminate Hc.
  - intros ->. discriminate Hp.
Qed.

Lemma extractTopicByFrequency_word_witness :
  forallb lowerWordUnit $"cats" = true /\ 2 < len $"cats".
Proof.
  destruct (extractTopicByFrequency_word $"Cats and dogs, CATS and birds" $"cats")
    as (Hunits & Hlen & _); [vm_compute; reflexivity|].
  split; [exact Hunits | exact Hlen].
Defined.

(** X29. The pattern strategy, whatever entry the engine's sort puts
    first: a returned topic is the lower-cased capture of one of the ten
    patterns, made of units of [\w], longer than two units, no stop
    word, and never ["__proto__"]; and the strategy returns nothing
    exactly when no pattern captures a counted word other than
    ["__proto__"]. *)
Theorem extractTopicByPatterns_result (engineChoice : nat) (text : jsstring) :
  (forall w, extractTopicByPatterns engineChoice text = Some w ->
     topicWord w = true
     /\ w <> $"__proto__"
     /\ exists p, In p patterns /\ In w (countedCaptures p text))
  /\ (extractTopicByPatterns engineChoice text = None <->
      forall p w, In p patterns -> In w (countedCaptures p text) ->
                  w = $"__proto__").
Proof.
  split.
  - intros w H. split; [now apply (patterns_topicWord engineChoice text)|].
    now apply (patterns_captured engineChoice text).
  - split.
    + intros Hnone p w Hp Hw.
      destruct (decide (w = $"__proto__")) as [|Hne]; [assumption | exfalso].
      destruct (extractTopicByPatterns_cases engineChoice text)
        as [[_ Hempty] | [e [_ Hsome]]]; [|congruence].
      destruct (scorePatterns_has text (Z.of_nat (length patterns)) w patterns 0 [])
        as [c Hc]; [right; now exists p|].
      assert (Hin : In (w, c)
                      (List.filter (fun e => negb (eqs (fst e) $"__proto__"))
                         (patternMatchesOf text))).
      { apply filter_In. split; [exact Hc|]. cbn [fst]. unfold eqs.
        now rewrite bool_decide_eq_false_2. }
      rewrite Hempty in Hin. destruct Hin.
    + intros Hall.
      destruct (extractTopicByPatterns_cases engineChoice text)
        as [[Hnone _] | [[k c] [Hin Hsome]]]; [exact Hnone | exfalso].
      apply filter_In in Hin as [Hin Hproto]. cbn [fst] in Hproto.
      pose proof (scorePatterns_keys (fun k => k = $"__proto__")
                    text (Z.of_nat (length patterns)) patterns 0 []
                    (List.Forall_nil _) Hall) as Hkeys.
      rewrite List.Forall_forall in Hkeys.
      specialize (Hkeys (k, c) Hin). cbn [fst] in Hkeys. subst k.
      unfold eqs in Hproto.
      rewrite bool_decide_eq_true_2 in Hproto by reflexivity. discriminate.
Qed.

(** X30. [extractMainTopic] never returns the empty string.  A reply
    of the generative service that is accepted is the topic, whatever
    the text says; without an accepted reply (service not configured,
    call thrown, reply of no word or of more than three) the topic is
    ["unknown topic"] or one lower-case word of [\w] units, longer than
    two units and no stop word. *)
Theorem extractMainTopic_result (service : Gemini) (engineChoice : nat)
    (text : jsstring) :
  extractMainTopic service engineChoice text <> []
  /\ (forall topic, extractTopicWithGemini service = Some topic ->
        extractMainTopic service engineChoice text = topic)
  /\ (extractTopicWithGemini service = None ->
        extractMainTopic service engineChoice text = $"unknown topic"
        \/ topicWord (extractMainTopic service engineChoice text) = true).
Proof.
  assert (Hrest :
            extractTopicWithGemini service = None ->
            extractMainTopic service engineChoice text = $"unknown topic"
            \/ topicWord (extractMainTopic service engineChoice text) = true).
  { intros Hnone. unfold extractMainTopic. rewrite Hnone. cbn [answered].
    destruct (answered (extractTopicByFrequency text)) as [t|] eqn:Ef.
    - right. apply answered_some in Ef as [Ef _].
      now apply frequency_topicWord in Ef as [Ef _].
    - destruct (answered (extractTopicByPatterns engineChoice text)) as [t|] eqn:Ep.
      + right. apply answered_some in Ep as [Ep _].
        now apply patterns_topicWord in Ep.
      + apply fallback_topicWord. }
  assert (Hgemini : forall topic, extractTopicWithGemini service = Some topic ->
                      extractMainTopic service engineChoice text = topic).
  { intros topic H. unfold extractMainTopic. rewrite H.
    pose proof (gemini_nonempty service topic H) as Hne.
    destruct topic as [|c t]; [contradiction | reflexivity]. }
  split; [|split; assumption].
  destruct (extractTopicWithGemini service) as [topic|] eqn:E.
  - rewrite (Hgemini topic eq_refl). now apply (gemini_nonempty service).
  - destruct (Hrest eq_refl) as [-> | H]; [discriminate|].
    now apply topicWord_nonempty.
Qed.
